(** * Windowed nearest-neighbour itinerary (nearNextP8bWindow.c)

    A shallow embedding of [src/uniSpherical/nearNextP8bWindow.c] --
    [closeInWin], [closeOutWin], the driver loop of [main], the start-up
    and loading part of [main] and the final [qsort] with [compIntsIx0] --
    followed by the properties of the itinerary engine that the
    specification states about them.  The writing of the output, [main]
    as a whole and the loop of the brute-force baseline
    ([src/uniSpherical/nearNextP8bBruteForce.c]) are embedded as well;
    further properties of the code come last.

    C [int]s are integers of [Z], reduced by [wrap_int] where the program
    computes a value that may leave the range; the file-scope variables
    are a record passed from call to call; a run ends normally, in
    [errorExit], in undefined behaviour, or -- in the model only -- out of
    loop budget, and the theorems show that the last does not happen.
    The geodesy kernel, [atoi] and [qsort] are parameters. *)

From Stdlib.Strings Require Import Byte.
From stdpp Require Import base numbers list sorting strings gmap.

Local Open Scope Z_scope.

(** * The program *)

Definition INT_MIN : Z := - 2 ^ 31.

Definition INT_MAX : Z := 2 ^ 31 - 1.

(** Two's complement reduction of a mathematical integer to a 32-bit [int]. *)
Definition wrap_int (z : Z) : Z := (z + 2 ^ 31) `mod` 2 ^ 32 - 2 ^ 31.

Definition in_int (z : Z) : Prop := INT_MIN ≤ z ≤ INT_MAX.

(** [errorExit] call sites of [main], named after their messages; the
    payloads are the values the message prints. *)
Inductive error : Type :=
  | ErrUsage                        (* "command-line arguments: ..." *)
  | ErrOpenInput (path : string)    (* "Can't open [%s] for reading locations" *)
  | ErrOpenOutput (path : string)   (* "Can't open [%s] for writing locations" *)
  | ErrWindowSize (lo hi : Z)       (* "invalid window size (%d < n < %)" *)
  | ErrSeek (path : string)         (* "Can't read [%s]?" *)
  | ErrFileSize (size recsize : Z)  (* "Input file size (%d) not multiple of %d" *)
  | ErrNoMemory                     (* "No memory for locations?" *)
  | ErrAssertion                    (* "Program assertion?" *)
  | ErrOpenItinerary (path : string).
                (* "Can't open [%s] for writing itinerary sorted locations" *)

(** Behaviour the C standard leaves undefined and that the program can run
    into. *)
Inductive undefined : Type :=
  | OutOfBounds     (* locs[n] outside the allocated array *)
  | DivByZero.      (* x % 0 *)

(** Modelled from the spec: [errorExit] (scullions/errorExit.c is not among
    the sources) reports its message and terminates the process with a
    non-zero status; [Exit e] is that outcome. *)
Inductive res (A : Type) : Type :=
  | Ret (a : A)             (* normal completion *)
  | Exit (e : error)        (* the process was ended by errorExit *)
  | Fault (u : undefined)   (* undefined behaviour was reached *)
  | Fuel.                   (* the loop budget of the model ran out *)
Arguments Ret {A} a.
Arguments Exit {A} e.
Arguments Fault {A} u.
Arguments Fuel {A}.

#[global] Instance res_ret : MRet res := @Ret.

#[global] Instance res_fmap : FMap res := λ A B f m,
  match m with
  | Ret a => Ret (f a)
  | Exit e => Exit e
  | Fault u => Fault u
  | Fuel => Fuel
  end.

#[global] Instance res_bind : MBind res := λ A B f m,
  match m with
  | Ret a => f a
  | Exit e => Exit e
  | Fault u => Fault u
  | Fuel => Fuel
  end.

(** Modelled from the spec: the error taxonomy of the specification (its
    section on error handling); the program itself only has messages. *)
Inductive error_class : Type :=
  | ConfigurationError | IOError | FormatError | InvariantViolation
  | Unclassified.

Definition classify (e : error) : error_class :=
  match e with
  | ErrUsage | ErrWindowSize _ _ => ConfigurationError
  | ErrOpenInput _ | ErrOpenOutput _ | ErrSeek _ | ErrOpenItinerary _ => IOError
  | ErrFileSize _ _ => FormatError
  | ErrAssertion => InvariantViolation
  | ErrNoMemory => Unclassified
  end.

(** [struct loc]; [nemoPtUs8] is an 8-byte unsigned integer. *)
Record loc : Type := Loc { iOrd : Z; unused : Z; ptUs8 : Z }.

(** The file-scope variables of nearNextP8bWindow.c. *)
Record globals : Type := Globals {
  lcnCnt : Z;
  locs : list loc;
  iWin : Z;
  nInsideWin : Z;
  nOutsideWin : Z
}.

(** [locs[n]], defined only inside the allocated array. *)
Definition rd (l : list loc) (n : Z) : option loc :=
  if 0 <=? n then l !! Z.to_nat n else None.

(** The array after [locs[n].iOrd = v]. *)
Definition wr_iOrd (l : list loc) (n v : Z) : list loc :=
  alter (λ x, Loc v (unused x) (ptUs8 x)) (Z.to_nat n) l.

(** The geodesy kernel (nemo.h is not among the sources): the conversion
    of a Us8 token to its direction cosines, the squared chord between two
    of them, the comparison [<] of [double] and the constant
    [NEMO_DOUBLE_HUGE].  The laws say that [<] is a strict weak order on
    the values the kernel produces (they are finite, never NaN) and that a
    squared chord lies below [NEMO_DOUBLE_HUGE]. *)
Class DistanceOracle : Type := {
  Ncs : Type;
  double : Type;
  nemo_Us8ToNcs : Z → Ncs;
  NEMO_ChordSq3 : Ncs → Ncs → double;
  NEMO_DOUBLE_HUGE : double;
  dlt : double → double → bool;
  dlt_irrefl : ∀ a, dlt a a = false;
  dlt_trans : ∀ a b c, dlt a b = true → dlt b c = true → dlt a c = true;
  dlt_cotrans : ∀ a b c, dlt a b = true → dlt a c = true ∨ dlt c b = true;
  chord_lt_huge : ∀ a b, dlt (NEMO_ChordSq3 a b) NEMO_DOUBLE_HUGE = true
}.

(** ** The two searches and the driver loop *)

Section Engine.
Context {oracle : DistanceOracle}.

(** The [for (n = nStart; n < nEnd; n++)] loop of [closeInWin].  [n++]
    is reached with [n < nEnd] only, so it does not overflow. *)
Fixpoint closeInWin_for (fuel : nat) (l : list loc) (ptNcsLast : Ncs)
    (nEnd n : Z) (csqMin : double) (nMin : Z) : res Z :=
  if n <? nEnd then
    match fuel with
    | 0%nat => Fuel
    | S fuel' =>
      match rd l n with
      | None => Fault OutOfBounds
      | Some ln =>
        if negb (iOrd ln =? -1) then                          (* continue *)
          closeInWin_for fuel' l ptNcsLast nEnd (n + 1) csqMin nMin
        else
          let csq := NEMO_ChordSq3 ptNcsLast (nemo_Us8ToNcs (ptUs8 ln)) in
          if dlt csq csqMin then
            closeInWin_for fuel' l ptNcsLast nEnd (n + 1) csq n
          else
            closeInWin_for fuel' l ptNcsLast nEnd (n + 1) csqMin nMin
      end
    end
  else Ret nMin.

Definition closeInWin (g : globals) (nLast : Z) : res (Z * globals) :=
  let nStart := wrap_int (nLast - iWin g) in
  let nStart := if nStart <? 0 then 0 else nStart in
  let nEnd := wrap_int (nLast + iWin g) in
  let nEnd := if nEnd >? lcnCnt g then lcnCnt g else nEnd in
  match rd (locs g) nLast with
  | None => Fault OutOfBounds
  | Some lLast =>
    nMin ← closeInWin_for (Z.to_nat (nEnd - nStart)) (locs g)
             (nemo_Us8ToNcs (ptUs8 lLast)) nEnd nStart NEMO_DOUBLE_HUGE (-1);
    Ret (nMin, Globals (lcnCnt g) (locs g) (iWin g)
                 (wrap_int (nInsideWin g + 1)) (nOutsideWin g))
  end.

(** The [while ((nLow > 0) || (nHigh < lcnCnt))] loop of [closeOutWin].
    [nLow--] is reached with [nLow > 0] and [nHigh++] with
    [nHigh < lcnCnt] only, so neither overflows. *)
Fixpoint closeOutWin_while (fuel : nat) (l : list loc) (cnt nLow nHigh : Z)
    : res Z :=
  if (nLow >? 0) || (nHigh <? cnt) then
    match fuel with
    | 0%nat => Fuel
    | S fuel' =>
      let high_side (nLow' : Z) : res Z :=
        if nHigh <? cnt then
          match rd l nHigh with
          | None => Fault OutOfBounds
          | Some y =>
            if iOrd y =? -1 then Ret nHigh                  (* return(nHigh) *)
            else closeOutWin_while fuel' l cnt nLow' (nHigh + 1)
          end
        else closeOutWin_while fuel' l cnt nLow' nHigh in
      if nLow >? 0 then
        match rd l nLow with
        | None => Fault OutOfBounds
        | Some x =>
          if iOrd x =? -1 then Ret nLow                      (* return(nLow) *)
          else high_side (nLow - 1)
        end
      else high_side nLow
    end
  else Ret (-1).

Definition closeOutWin (g : globals) (nLast : Z) : res (Z * globals) :=
  let nLow := wrap_int (nLast - iWin g) in
  let nLow := if nLow <? 0 then 0 else nLow in
  let nHigh := wrap_int (nLast + iWin g) in
  let nHigh := if nHigh >? lcnCnt g then lcnCnt g else nHigh in
  r ← closeOutWin_while (Z.to_nat nLow + Z.to_nat (lcnCnt g - nHigh))
        (locs g) (lcnCnt g) nLow nHigh;
  Ret (r, Globals (lcnCnt g) (locs g) (iWin g)
            (nInsideWin g) (wrap_int (nOutsideWin g + 1))).

(** The variables of the loop, and the assignments to an [iOrd] field made
    since [locs] was loaded: (index, value before, value stored), oldest
    first. *)
Record driver : Type := Driver {
  dg : globals;
  nPrev : Z;
  k : Z;
  stores : list (Z * Z * Z)
}.

(** [locs[n].iOrd = v], recorded in [stores]. *)
Definition assign_iOrd (g : globals) (st : list (Z * Z * Z)) (n v : Z)
    : res (globals * list (Z * Z * Z)) :=
  match rd (locs g) n with
  | None => Fault OutOfBounds
  | Some x =>
    Ret (Globals (lcnCnt g) (wr_iOrd (locs g) n v) (iWin g)
           (nInsideWin g) (nOutsideWin g),
         st ++ [(n, iOrd x, v)])
  end.

(** [nNext = closeInWin(nPrev); if (nNext == -1) nNext = closeOutWin(nPrev);] *)
Definition next_location (g : globals) (nLast : Z) : res (Z * globals) :=
  '(nNext, g1) ← closeInWin g nLast;
  if nNext =? -1 then closeOutWin g1 nLast else Ret (nNext, g1).

(** One pass through the body of [while (k < lcnCnt)]. *)
Definition driver_body (d : driver) : res driver :=
  '(nNext, g2) ← next_location (dg d) (nPrev d);
  if nNext =? -1 then Exit ErrAssertion
  else
    '(g3, st) ← assign_iOrd g2 (stores d) nNext (k d);
    Ret (Driver g3 nNext (wrap_int (k d + 1)) st).

Fixpoint driver_while (fuel : nat) (d : driver) : res driver :=
  if k d <? lcnCnt (dg d) then
    match fuel with
    | 0%nat => Fuel
    | S fuel' => d' ← driver_body d; driver_while fuel' d'
    end
  else Ret d.

(** Lines 119-132 of [main]: from the loaded array to the end of the loop. *)
Definition itinerary (g : globals) : res driver :=
  let g := Globals (lcnCnt g) (locs g) (iWin g) 0 0 in
  '(g, st) ← assign_iOrd g [] 0 0;
  driver_while (Z.to_nat (lcnCnt g - 1)) (Driver g 0 1 st).

(** The scan of the brute-force baseline (nearNextP8bBruteForce.c, lines
    80-89: [nld = NEMO_DOUBLE_HUGE; nx = -1;] and the loop over the
    candidates with [if (cld < nld)]), taken over an array in which the
    visited locations are marked instead of being swapped to the front:
    [rest] are the locations from index [nn] on. *)
Fixpoint brute_scan (ptNcs : Ncs) (rest : list loc) (nn : Z)
    (nld : double) (nx : Z) : Z :=
  match rest with
  | [] => nx
  | c :: rest' =>
    if iOrd c =? -1 then
      let cld := NEMO_ChordSq3 ptNcs (nemo_Us8ToNcs (ptUs8 c)) in
      if dlt cld nld then brute_scan ptNcs rest' (nn + 1) cld nn
      else brute_scan ptNcs rest' (nn + 1) nld nx
    else brute_scan ptNcs rest' (nn + 1) nld nx
  end.

(** The nearest unvisited location to [p] among all of the array. *)
Definition nearest_unbounded (l : list loc) (p : Z) : res Z :=
  match rd l p with
  | None => Fault OutOfBounds
  | Some x =>
    Ret (brute_scan (nemo_Us8ToNcs (ptUs8 x)) l 0 NEMO_DOUBLE_HUGE (-1))
  end.

End Engine.

(** ** Start-up and loading in [main] *)

Definition MIN_WIN : Z := 16.

Definition MAX_WIN : Z := 32000.

Definition sizeof_nemoPtUs8 : Z := 8.

(** What [main] does to the file system, in order. *)
Inductive io_event : Type :=
  | EvOpenRead (path : string)      (* fopen(path, "rb") *)
  | EvOpenWrite (path : string)     (* fopen(path, "wb") *)
  | EvClose (path : string)         (* fclose *)
  | EvSize (path : string)          (* fseek to the end, ftell, rewind *)
  | EvRead (path : string).         (* the loop of fread calls *)

(** The files by path, the paths that cannot be opened for writing, and the
    file operations performed so far (oldest first). *)
Record world : Type := World {
  fs : gmap string (list byte);
  denied : gset string;
  trace : list io_event
}.

(** A computation on the world; the world is kept when the process ends. *)
Record io (A : Type) : Type := IO { run : world → res A * world }.
Arguments IO {A} run.
Arguments run {A} i w.

#[global] Instance io_ret : MRet io := λ A a, IO (λ w, (Ret a, w)).

#[global] Instance io_bind : MBind io := λ A B f m, IO (λ w,
  match run m w with
  | (Ret a, w') => run (f a) w'
  | (Exit e, w') => (Exit e, w')
  | (Fault u, w') => (Fault u, w')
  | (Fuel, w') => (Fuel, w')
  end).

Definition errorExit {A : Type} (e : error) : io A := IO (λ w, (Exit e, w)).

Definition undefined_behaviour {A : Type} (u : undefined) : io A :=
  IO (λ w, (Fault u, w)).

Definition log (ev : io_event) : io unit :=
  IO (λ w, (Ret (), World (fs w) (denied w) (trace w ++ [ev]))).

(** [fopen(path, "rb")]: [true] when a stream was obtained. *)
Definition fopen_rb (path : string) : io bool :=
  _ ← log (EvOpenRead path);
  IO (λ w, (Ret (bool_decide (is_Some (fs w !! path))), w)).

(** [fopen(path, "wb")]: creates the file, or truncates it to length 0. *)
Definition fopen_wb (path : string) : io bool :=
  _ ← log (EvOpenWrite path);
  IO (λ w, if decide (path ∈ denied w) then (Ret false, w)
           else (Ret true, World (<[path := []]> (fs w)) (denied w) (trace w))).

Definition fclose (path : string) : io unit := log (EvClose path).

(** [fseek(fp, 0, SEEK_END); ftell(fp); rewind(fp)] on an open stream, the
    result stored in an [int]. *)
Definition file_size (path : string) : io Z :=
  _ ← log (EvSize path);
  IO (λ w, (Ret (wrap_int (Z.of_nat (length (default [] (fs w !! path))))), w)).

Definition file_content (path : string) : io (list byte) :=
  IO (λ w, (Ret (default [] (fs w !! path)), w)).

(** A [nemoPtUs8] from its eight bytes in the file (little-endian host). *)
Fixpoint le_decode (bs : list byte) : Z :=
  match bs with
  | [] => 0
  | b :: bs' => Z.of_N (Byte.to_N b) + 256 * le_decode bs'
  end.

(** The loop [for (n = 0; n < lcnCnt; n++)] that fills [locs]: a short
    [fread] leaves [locUs8] as it was; [unused] is never assigned. *)
Fixpoint load_records (cnt : nat) (content : list byte) (locUs8 : Z)
    : list loc :=
  match cnt with
  | 0%nat => []
  | S cnt' =>
    let locUs8 :=
      if decide (8 ≤ length content)%nat then le_decode (take 8 content)
      else locUs8 in
    Loc (-1) 0 locUs8 :: load_records cnt' (drop 8 content) locUs8
  end.

(** [(int)(inFileSize / sizeof(nemoPtUs8))]: the division is done in
    [size_t] (64 bits, unsigned). *)
Definition record_count (inFileSize : Z) : Z :=
  wrap_int ((inFileSize `mod` 2 ^ 64) / sizeof_nemoPtUs8).

Section Main.
(** [atoi] of the C library. *)
Context (atoi : string → Z).

(** Lines 75-93 of [main]: the arguments, both [fopen]s, the window size.
    Yields [argv[1]], [argv[2]] and [iWin]. *)
Definition main_startup (argv : list string) : io (string * string * Z) :=
  match argv with
  | _ :: a1 :: a2 :: a3 :: _ =>
    inFp ← fopen_rb a1;
    if negb inFp then errorExit (ErrOpenInput a1) else
    outFp ← fopen_wb a2;
    if negb outFp then errorExit (ErrOpenOutput a2) else
    _ ← fclose a2;
    let n := atoi a3 in
    if (n <? MIN_WIN) || (n >? MAX_WIN)
    then errorExit (ErrWindowSize MIN_WIN MAX_WIN)
    else mret (a1, a2, n ÷ 2)
  | _ => errorExit ErrUsage                                  (* argc < 4 *)
  end.

(** Lines 96-116 of [main]: the size check and the loading of [locs];
    [fseek] and [malloc] are taken to succeed. *)
Definition main_load (a1 : string) (iWin0 : Z) : io globals :=
  inFileSize ← file_size a1;
  let cnt := record_count inFileSize in
  if cnt =? 0 then undefined_behaviour DivByZero else
  if negb (inFileSize `rem` cnt =? 0)
  then errorExit (ErrFileSize inFileSize sizeof_nemoPtUs8) else
  content ← file_content a1;
  _ ← log (EvRead a1);
  _ ← fclose a1;
  mret (Globals cnt (load_records (Z.to_nat cnt) content 0) iWin0 0 0).

(** [main] up to the point where the itinerary loop starts. *)
Definition main_prefix (argv : list string) : io globals :=
  '(a1, a2, iWin0) ← main_startup argv;
  main_load a1 iWin0.

End Main.

(** ** Sorting for output *)

(** [compIntsIx0]: the difference of the two [iOrd] fields, as an [int]. *)
Definition compIntsIx0 (p1 p2 : loc) : Z := wrap_int (iOrd p1 - iOrd p2).

(** The order [qsort] is asked for: [p1] may stand before [p2]. *)
Definition not_after (cmp : loc → loc → Z) (p1 p2 : loc) : Prop :=
  cmp p1 p2 ≤ 0.

#[global] Instance not_after_dec cmp p1 p2 : Decision (not_after cmp p1 p2).
Proof. unfold not_after. apply _. Defined.

(** What [qsort(locs, lcnCnt, sizeof(struct loc), compIntsIx0)] leaves in
    [locs]: the same elements, each one not after its successor according
    to the comparison function.  The C library fixes no algorithm. *)
Definition qsort_result (cmp : loc → loc → Z) (l out : list loc) : Prop :=
  out ≡ₚ l ∧ Sorted (not_after cmp) out.

(** One sorting function that meets [qsort_result]. *)
Definition qsort_locs (l : list loc) : list loc :=
  merge_sort (not_after compIntsIx0) l.

(** ** Writing the itinerary (nearNextP8bWindow.c, lines 157-165) *)

(** The byte whose value is [z], for [0 <= z < 256]. *)
Definition byte_of_Z (z : Z) : byte := default x00 (Byte.of_N (Z.to_N z)).

(** The [n] bytes [fwrite] puts in the file for an unsigned integer of [n]
    bytes (little-endian host). *)
Fixpoint le_encode (n : nat) (z : Z) : list byte :=
  match n with
  | 0%nat => []
  | S n' => byte_of_Z (z `mod` 256) :: le_encode n' (z / 256)
  end.

(** Running a computation that does not touch the world. *)
Definition lift {A : Type} (r : res A) : io A := IO (λ w, (r, w)).

(** [fwrite] of some bytes at the end of an open output file. *)
Definition fwrite (path : string) (bytes : list byte) : io unit :=
  IO (λ w, (Ret (), World (<[path := default [] (fs w !! path) ++ bytes]> (fs w))
                      (denied w) (trace w))).

(** The loop [for (n = 0; n < lcnCnt; n++)] of [fwrite] calls. *)
Fixpoint write_records (fuel : nat) (a2 : string) (l : list loc) (cnt n : Z)
    : io unit :=
  if n <? cnt then
    match fuel with
    | 0%nat => lift Fuel
    | S fuel' =>
      match rd l n with
      | None => undefined_behaviour OutOfBounds
      | Some x =>
        _ ← fwrite a2 (le_encode 8 (ptUs8 x));
        write_records fuel' a2 l cnt (n + 1)
      end
    end
  else mret ().

(** Lines 157-165 of [main]: the output file is opened again and the
    tokens are written in the order of the array. *)
Definition main_output (a2 : string) (g : globals) : io unit :=
  outFp ← fopen_wb a2;
  if negb outFp then errorExit (ErrOpenItinerary a2) else
  _ ← write_records (Z.to_nat (lcnCnt g)) a2 (locs g) (lcnCnt g) 0;
  fclose a2.

Section WholeMain.
Context {oracle : DistanceOracle}.
(** [atoi] and [qsort] of the C library. *)
Context (atoi : string → Z) (qsort : list loc → list loc).

(** [main] of nearNextP8bWindow.c.  The messages and the report of the
    itinerary's length (lines 134-155), which read [locs] inside the array
    and write to no file, are left out. *)
Definition main (argv : list string) : io unit :=
  '(a1, a2, iWin0) ← main_startup atoi argv;
  g ← main_load a1 iWin0;
  d ← lift (itinerary g);
  let g := dg d in
  let g := Globals (lcnCnt g) (qsort (locs g)) (iWin g)
             (nInsideWin g) (nOutsideWin g) in
  main_output a2 g.

End WholeMain.

(** ** The brute-force program (nearNextP8bBruteForce.c) *)

(** [locations[n]] of the brute-force program. *)
Definition rdU (l : list Z) (n : Z) : option Z :=
  if 0 <=? n then l !! Z.to_nat n else None.

Section BruteForceProgram.
Context {oracle : DistanceOracle}.

(** The loop [for (nn = n + 1; nn < lcnCnt; nn++)] (lines 82-89). *)
Fixpoint bf_inner (fuel : nat) (l : list Z) (ptNcs : Ncs) (cnt nn : Z)
    (nld : double) (nx : Z) : res Z :=
  if nn <? cnt then
    match fuel with
    | 0%nat => Fuel
    | S fuel' =>
      match rdU l nn with
      | None => Fault OutOfBounds
      | Some c =>
        let cld := NEMO_ChordSq3 ptNcs (nemo_Us8ToNcs c) in
        if dlt cld nld then bf_inner fuel' l ptNcs cnt (nn + 1) cld nn
        else bf_inner fuel' l ptNcs cnt (nn + 1) nld nx
      end
    end
  else Ret nx.

(** Lines 93-95: [locations[n + 1]] and [locations[nx]] change places. *)
Definition bf_swap (l : list Z) (n1 nx : Z) : res (list Z) :=
  match rdU l n1, rdU l nx with
  | Some holdLoc, Some b =>
    Ret (<[Z.to_nat nx := holdLoc]> (<[Z.to_nat n1 := b]> l))
  | _, _ => Fault OutOfBounds
  end.

(** How the loop of the brute-force program ends: with the array, or in
    the [errorExit] of line 90, "Unexpected error while searching for next
    location at %d". *)
Inductive bf_end : Type :=
  | BfDone (l : list Z)
  | BfUnexpected (n : Z).

(** The loop [for (n = 0; n < (lcnCnt - 2); n++)] (lines 77-97); its body
    ends with an [n++] of its own. *)
Fixpoint bf_outer (fuel : nat) (l : list Z) (cnt n : Z) : res bf_end :=
  if n <? cnt - 2 then
    match fuel with
    | 0%nat => Fuel
    | S fuel' =>
      match rdU l n with
      | None => Fault OutOfBounds
      | Some loc =>
        nx ← bf_inner (Z.to_nat (cnt - (n + 1))) l (nemo_Us8ToNcs loc) cnt
               (n + 1) NEMO_DOUBLE_HUGE (-1);
        if nx =? -1 then Ret (BfUnexpected n)
        else
          l' ← bf_swap l (n + 1) nx;
          bf_outer fuel' l' cnt (n + 1 + 1)
      end
    end
  else Ret (BfDone l).

(** The itinerary loop of the brute-force program on an array of [cnt]
    tokens. *)
Definition bf_itinerary (l : list Z) (cnt : Z) : res bf_end :=
  bf_outer (Z.to_nat cnt) l cnt 0.

End BruteForceProgram.

(** * The vocabulary of the properties *)

(** Location [j] exists and has not been visited. *)
Definition unvisited (l : list loc) (j : Z) : Prop :=
  ∃ x, rd l j = Some x ∧ iOrd x = -1.

(** Location [j] exists and has been given an order. *)
Definition visited (l : list loc) (j : Z) : Prop :=
  ∃ x, rd l j = Some x ∧ iOrd x ≠ -1.

#[global] Instance unvisited_dec l j : Decision (unvisited l j).
Proof.
  destruct (rd l j) as [x|] eqn:Hx.
  - destruct (decide (iOrd x = -1)).
    + left. by exists x.
    + right. intros (y & Hy & Hu). congruence.
  - right. intros (y & Hy & _). congruence.
Defined.

(** The token stored at index [j]. *)
Definition token (l : list loc) (j : Z) : Z :=
  from_option ptUs8 0 (rd l j).

(** [lcnCnt] is the number of elements of [locs]. *)
Definition well_sized (g : globals) : Prop :=
  lcnCnt g = Z.of_nat (length (locs g)).

Section Distances.
Context {oracle : DistanceOracle}.

(** Proxy distance from the pivot's direction cosines to location [j]. *)
Definition csq_to (pt : Ncs) (l : list loc) (j : Z) : double :=
  NEMO_ChordSq3 pt (nemo_Us8ToNcs (token l j)).

(** Proxy distance between locations [p] and [j] of the array. *)
Definition csq_between (l : list loc) (p j : Z) : double :=
  csq_to (nemo_Us8ToNcs (token l p)) l j.

(** [m] is the first of the nearest unvisited locations of [s, n). *)
Definition first_nearest (pt : Ncs) (l : list loc) (s n m : Z) : Prop :=
  s ≤ m < n ∧ unvisited l m ∧
  ∀ j, s ≤ j < n → unvisited l j →
    dlt (csq_to pt l j) (csq_to pt l m) = false ∧
    (dlt (csq_to pt l m) (csq_to pt l j) = false → m ≤ j).

(** What [closeInWin]'s loop knows when it is about to look at index [n]. *)
Definition scanned (pt : Ncs) (l : list loc) (s n : Z)
    (csqMin : double) (nMin : Z) : Prop :=
  (nMin = -1 ∧ csqMin = NEMO_DOUBLE_HUGE ∧ ∀ j, s ≤ j < n → ¬ unvisited l j)
  ∨ (csqMin = csq_to pt l nMin ∧ first_nearest pt l s n nMin).

(** The window of [closeInWin] and [closeOutWin] around [p]. *)
Definition win_start (g : globals) (p : Z) : Z := Z.max 0 (p - iWin g).

Definition win_end (g : globals) (p : Z) : Z := Z.min (lcnCnt g) (p + iWin g).

(** The globals after [nInsideWin++]. *)
Definition inside_counted (g : globals) : globals :=
  Globals (lcnCnt g) (locs g) (iWin g)
    (wrap_int (nInsideWin g + 1)) (nOutsideWin g).

(** The globals after [nOutsideWin++]. *)
Definition outside_counted (g : globals) : globals :=
  Globals (lcnCnt g) (locs g) (iWin g)
    (nInsideWin g) (wrap_int (nOutsideWin g + 1)).

End Distances.

(** The indices [closeOutWin]'s loop can reach from [nLow] and [nHigh]. *)
Definition reachable (cnt nLow nHigh j : Z) : Prop :=
  0 < j ≤ nLow ∨ nHigh ≤ j < cnt.

(** What the loop returns, started at [nLow] and [nHigh]: [-1] when no
    reachable location is unvisited; otherwise an unvisited location [r]
    such that every location tested before it -- on the low side those
    nearer to [nLow] than [r] is, on the high side those nearer to [nHigh],
    and, when [r] is on the high side, also the low one at the same
    distance -- is visited. *)
Definition outward_result (l : list loc) (cnt nLow nHigh r : Z) : Prop :=
  (r = -1 ∧ ∀ j, reachable cnt nLow nHigh j → ¬ unvisited l j)
  ∨ (unvisited l r ∧ 0 < r ≤ nLow
     ∧ (∀ j, r < j ≤ nLow → ¬ unvisited l j)
     ∧ (∀ j, nHigh ≤ j < cnt → j - nHigh < nLow - r → ¬ unvisited l j))
  ∨ (unvisited l r ∧ nHigh ≤ r < cnt
     ∧ (∀ j, nHigh ≤ j < r → ¬ unvisited l j)
     ∧ (∀ j, 0 < j ≤ nLow → nLow - j ≤ r - nHigh → ¬ unvisited l j)).

(** The order in which the outward search of the specification tests
    indices: in each round the low boundary while it is above 0, then the
    high boundary while it is below [cnt], each boundary moving one step
    outwards after its test. *)
Fixpoint probe_order (rounds : nat) (cnt low high : Z) : list Z :=
  match rounds with
  | 0%nat => []
  | S rounds' =>
    (if 0 <? low then [low] else []) ++
    (if high <? cnt then [high] else []) ++
    probe_order rounds' cnt (if 0 <? low then low - 1 else low)
      (if high <? cnt then high + 1 else high)
  end.

(** The first unvisited index of a list of indices, [-1] when none is. *)
Definition first_unvisited (l : list loc) (js : list Z) : Z :=
  default (-1) (head (filter (unvisited l) js)).

(** The index a search returned, without the globals. *)
Definition returned {A B : Type} (r : res (A * B)) : res A :=
  '(a, _) ← r; Ret a.

(** The number of locations that have been given an order. *)
Definition visited_count (l : list loc) : nat :=
  length (filter (λ x, iOrd x ≠ -1) l).

(** The value [halfWidth] may take: non-negative, and small enough for
    [nLast + iWin] to be an [int] at every index of the array. *)
Definition window_fits (g : globals) : Prop :=
  0 ≤ iWin g ∧ lcnCnt g + iWin g ≤ INT_MAX.

(** What holds each time the loop condition [k < lcnCnt] is tested, for an
    array of [N] locations and half-window [h]. *)
Record driver_inv (N h : Z) (d : driver) : Prop := DriverInv {
  inv_cnt : lcnCnt (dg d) = N;
  inv_size : well_sized (dg d);
  inv_win : iWin (dg d) = h;
  inv_prev : 0 ≤ nPrev d < N;
  inv_k : 1 ≤ k d ≤ N;
  inv_start : visited (locs (dg d)) 0;
  inv_orders :
    iOrd <$> locs (dg d) ≡ₚ seqZ 0 (k d) ++ replicate (Z.to_nat (N - k d)) (-1);
  inv_stores_len : Z.of_nat (length (stores d)) = k d;
  inv_stores_once : NoDup (stores d).*1.*1;
  inv_stores :
    ∀ i o v, (i, o, v) ∈ stores d →
      o = -1 ∧ v ≠ -1 ∧ ∃ x, rd (locs (dg d)) i = Some x ∧ iOrd x = v
}.

(** Every location has an order, and the orders are [0 .. length-1], each
    once: the state of [locs] when the driver loop has ended. *)
Definition completed (l : list loc) : Prop :=
  iOrd <$> l ≡ₚ seqZ 0 (Z.of_nat (length l)).

(** The world after lines 79-87 of [main] have opened both files. *)
Definition files_opened (a1 a2 : string) (w : world) : world :=
  World (<[a2 := []]> (fs w)) (denied w)
    (trace w ++ [EvOpenRead a1; EvOpenWrite a2; EvClose a2]).



(** What the loop keeps besides [driver_inv]: the orders are stored in
    increasing order starting with that of location 0, the pivot is the
    location stored to last, [nInsideWin] has counted every pass,
    [nOutsideWin] at most as many. *)
Definition driver_log (d : driver) : Prop :=
  (stores d).*2 = seqZ 0 (k d)
  ∧ head (stores d).*1.*1 = Some 0
  ∧ last (stores d).*1.*1 = Some (nPrev d)
  ∧ nInsideWin (dg d) = k d - 1
  ∧ 0 ≤ nOutsideWin (dg d) ≤ k d - 1.

(** The location after [l !! m] is at least as near to it as every later
    one. *)
Definition bf_greedy_at {oracle : DistanceOracle} (l : list Z) (m : nat)
    : Prop :=
  ∀ a b c, l !! m = Some a → l !! S m = Some b → c ∈ drop (S m) l →
    dlt (NEMO_ChordSq3 (nemo_Us8ToNcs a) (nemo_Us8ToNcs c))
        (NEMO_ChordSq3 (nemo_Us8ToNcs a) (nemo_Us8ToNcs b)) = false.

(** * Example inputs *)

(** Points on a line, the distance being the absolute difference of the
    tokens, capped so that it stays below the oracle's [NEMO_DOUBLE_HUGE]
    (the test oracle of the specification's worked scenario). *)
#[program] Definition lineOracle : DistanceOracle := {|
  Ncs := Z;
  double := Z;
  nemo_Us8ToNcs := λ t, t;
  NEMO_ChordSq3 := λ a b, Z.min (Z.abs (a - b)) 1000;
  NEMO_DOUBLE_HUGE := 1000000;
  dlt := Z.ltb
|}.
Next Obligation. intros a. apply Z.ltb_irrefl. Qed.
Next Obligation. intros a b c. rewrite !Z.ltb_lt. lia. Qed.
Next Obligation. intros a b c. rewrite !Z.ltb_lt. lia. Qed.
Next Obligation. intros a b. apply Z.ltb_lt. lia. Qed.

(** A freshly loaded array holding the given tokens. *)
Definition fresh (tokens : list Z) : list loc :=
  (λ t, Loc (-1) 0 t) <$> tokens.

(** Five locations on a line, the first one visited, half-window 8. *)
Definition five_started : globals :=
  Globals 5 [Loc 0 0 10; Loc (-1) 0 1; Loc (-1) 0 2; Loc (-1) 0 9;
             Loc (-1) 0 8] 8 0 0.

(** Five locations of which only the one at index 0 is unvisited,
    half-window 1. *)
Definition only_first_unvisited : globals :=
  Globals 5 [Loc (-1) 0 10; Loc 0 0 1; Loc 3 0 2; Loc 1 0 9; Loc 2 0 8] 1 0 0.

(** Five locations with the window [2, 4) around index 3 visited and
    unvisited locations on both sides of it, half-window 1. *)
Definition window_exhausted : globals :=
  Globals 5 [Loc 0 0 10; Loc (-1) 0 1; Loc 2 0 2; Loc 1 0 9; Loc (-1) 0 8]
    1 0 0.

(** A single unvisited location, half-window 0. *)
Definition single_zero_width : globals := Globals 1 [Loc (-1) 0 10] 0 0 0.

(** Five freshly loaded locations, half-window 8. *)
Definition five_loaded : globals := Globals 5 (fresh [10; 1; 2; 9; 8]) 8 0 0.

(** Three visited locations, not in the order of their visits. *)
Definition three_completed : list loc :=
  [Loc 2 0 5; Loc 0 0 6; Loc 1 0 7].

(** Reads the decimal digits a string starts with (a stand-in for [atoi]
    on plain numerals). *)
Fixpoint decimal_from (acc : Z) (s : string) : Z :=
  match s with
  | String c s' =>
    let d := Z.of_nat (Ascii.nat_of_ascii c) - 48 in
    if (0 <=? d) && (d <=? 9) then decimal_from (10 * acc + d) s' else acc
  | EmptyString => acc
  end.

Definition decimal (s : string) : Z := decimal_from 0 s.

(** A file of [n] zero bytes. *)
Definition zeros (n : nat) : list byte := replicate n x00%byte.

(** A world with one input file of [n] bytes and nothing else. *)
Definition world_with_input (n : nat) : world :=
  World {[ "in.p8b"%string := zeros n ]} ∅ [].

(** The command line [nearNextP8bWindow in.p8b out.p8b <win>]. *)
Definition command_line (win : string) : list string :=
  ["nearNextP8bWindow"; "in.p8b"; "out.p8b"; win]%string.

(** A file of five records holding the tokens of the scenario. *)
Definition five_records : list byte :=
  mjoin (le_encode 8 <$> [10; 1; 2; 9; 8]).

(** A world with [five_records] as the only file. *)
Definition world_five : world :=
  World {[ "in.p8b"%string := five_records ]} ∅ [].

(** A world in which the output file cannot be opened for writing. *)
Definition world_read_only : world :=
  World {[ "in.p8b"%string := zeros 8 ]} {[ "out.p8b"%string ]} [].

(** * Lemmas *)

(** Closes goals that compare concrete or linear expressions with the
    bounds of [int]. *)
Ltac int_bounds :=
  unfold in_int, window_fits, INT_MIN, INT_MAX, MIN_WIN, MAX_WIN in *;
  simpl in *; lia.

Lemma wrap_int_id z : in_int z → wrap_int z = z.
Proof.
  unfold in_int, INT_MIN, INT_MAX, wrap_int. intros Hz.
  rewrite Z.mod_small; lia.
Qed.

Lemma rd_Some l n x :
  rd l n = Some x ↔ 0 ≤ n ∧ l !! Z.to_nat n = Some x.
Proof.
  unfold rd. destruct (Z.leb_spec 0 n); split.
  - done.
  - by intros [_ ?].
  - done.
  - intros [? _]. lia.
Qed.

Lemma rd_in_range l n : 0 ≤ n < Z.of_nat (length l) → is_Some (rd l n).
Proof.
  intros Hn. destruct (lookup_lt_is_Some_2 l (Z.to_nat n)) as [x Hx]; [lia|].
  exists x. apply rd_Some. split; [lia | done].
Qed.

Lemma rd_range l n x : rd l n = Some x → 0 ≤ n < Z.of_nat (length l).
Proof.
  intros [H0 Hx]%rd_Some. apply lookup_lt_Some in Hx. lia.
Qed.

Lemma unvisited_range l j : unvisited l j → 0 ≤ j < Z.of_nat (length l).
Proof. intros (x & Hx & _). by eapply rd_range. Qed.

Lemma visited_or_unvisited l j :
  0 ≤ j < Z.of_nat (length l) → visited l j ∨ unvisited l j.
Proof.
  intros [x Hx]%rd_in_range. destruct (decide (iOrd x = -1)).
  - right. by exists x.
  - left. by exists x.
Qed.

Lemma visited_not_unvisited l j : visited l j → ¬ unvisited l j.
Proof. intros (x & Hx & Hv) (y & Hy & Hu). congruence. Qed.

(** ** The window search *)

Section WindowSearch.
Context {oracle : DistanceOracle}.

Lemma scanned_visited pt l s n c m x :
  s ≤ n → rd l n = Some x → iOrd x ≠ -1 →
  scanned pt l s n c m → scanned pt l s (n + 1) c m.
Proof.
  intros Hsn Hx Hv [(-> & -> & Hnone) | (-> & Hm & Hu & Hmin)].
  - left. repeat split. intros j Hj Huj.
    destruct (decide (j = n)) as [->|]; [|apply (Hnone j); [lia | done]].
    destruct Huj as (y & Hy & Hyu). congruence.
  - right. split; [done|]. split; [lia|]. split; [done|].
    intros j Hj Huj. apply Hmin; [|done].
    destruct (decide (j = n)) as [->|]; [|lia].
    destruct Huj as (y & Hy & Hyu). congruence.
Qed.

Lemma scanned_closer pt l s n c m x :
  s ≤ n → rd l n = Some x → iOrd x = -1 →
  dlt (csq_to pt l n) c = true →
  scanned pt l s n c m → scanned pt l s (n + 1) (csq_to pt l n) n.
Proof.
  intros Hsn Hx Hu Hlt Hsc. right. split; [done|].
  split; [lia|]. split; [by exists x|].
  intros j Hj Huj. destruct (decide (j = n)) as [->|Hne].
  { split; [apply dlt_irrefl | lia]. }
  destruct Hsc as [(-> & -> & Hnone) | (-> & Hm & Hmu & Hmin)].
  { destruct (Hnone j); [lia | done]. }
  destruct (Hmin j) as [Hjm _]; [lia | done |].
  split.
  - destruct (dlt (csq_to pt l j) (csq_to pt l n)) eqn:Hjn; [|done].
    rewrite (dlt_trans _ _ _ Hjn Hlt) in Hjm. done.
  - intros Hnj. destruct (dlt_cotrans _ _ (csq_to pt l j) Hlt); congruence.
Qed.

Lemma scanned_farther pt l s n c m x :
  s ≤ n → rd l n = Some x → iOrd x = -1 →
  dlt (csq_to pt l n) c = false →
  scanned pt l s n c m → scanned pt l s (n + 1) c m.
Proof.
  intros Hsn Hx Hu Hge [(-> & -> & Hnone) | (-> & Hm & Hmu & Hmin)].
  { unfold csq_to in Hge. rewrite chord_lt_huge in Hge. done. }
  right. split; [done|]. split; [lia|]. split; [done|].
  intros j Hj Huj. destruct (decide (j = n)) as [->|Hne].
  - split; [done | lia].
  - apply Hmin; [lia | done].
Qed.

(** The loop ends, without leaving the array, knowing the whole range. *)
Lemma closeInWin_for_scanned fuel l pt nEnd s :
  ∀ n csqMin nMin,
    (Z.to_nat (nEnd - n) ≤ fuel)%nat →
    0 ≤ s ≤ n → n ≤ nEnd → nEnd ≤ Z.of_nat (length l) →
    scanned pt l s n csqMin nMin →
    ∃ r c, closeInWin_for fuel l pt nEnd n csqMin nMin = Ret r
           ∧ scanned pt l s nEnd c r.
Proof.
  induction fuel as [|fuel IH]; intros n c m Hfuel Hs Hn Hend Hsc.
  - assert (n = nEnd) as -> by lia. simpl.
    rewrite Z.ltb_irrefl. eauto.
  - simpl. destruct (Z.ltb_spec n nEnd) as [Hlt|Hge].
    2:{ assert (n = nEnd) as -> by lia. eauto. }
    destruct (rd_in_range l n) as [x Hx]; [lia|]. rewrite Hx.
    destruct (Z.eqb_spec (iOrd x) (-1)) as [Hu|Hv]; simpl.
    + fold (csq_to pt l n).
      replace (NEMO_ChordSq3 pt (nemo_Us8ToNcs (ptUs8 x)))
        with (csq_to pt l n) by (unfold csq_to, token; by rewrite Hx).
      destruct (dlt (csq_to pt l n) c) eqn:Hcmp.
      * apply IH; [lia | lia | lia | done |].
        eapply scanned_closer; [lia | done..].
      * apply IH; [lia | lia | lia | done |].
        eapply scanned_farther; [lia | done..].
    + apply IH; [lia | lia | lia | done |].
      eapply scanned_visited; [lia | done..].
Qed.

Lemma closeInWin_for_empty fuel l pt nEnd n csqMin nMin :
  nEnd ≤ n → closeInWin_for fuel l pt nEnd n csqMin nMin = Ret nMin.
Proof.
  intros Hn. destruct fuel; simpl; by destruct (Z.ltb_spec n nEnd); [lia|].
Qed.

Lemma clamp_low z : (if z <? 0 then 0 else z) = Z.max 0 z.
Proof. destruct (Z.ltb_spec z 0); lia. Qed.

Lemma clamp_high z c : (if z >? c then c else z) = Z.min c z.
Proof. rewrite Z.gtb_ltb. destruct (Z.ltb_spec c z); lia. Qed.

(** [closeInWin] in terms of its loop, when the window bounds are [int]s. *)
Lemma closeInWin_unfold g p x :
  in_int (p - iWin g) → in_int (p + iWin g) → rd (locs g) p = Some x →
  closeInWin g p =
    (nMin ← closeInWin_for (Z.to_nat (win_end g p - win_start g p)) (locs g)
              (nemo_Us8ToNcs (ptUs8 x)) (win_end g p) (win_start g p)
              NEMO_DOUBLE_HUGE (-1);
     Ret (nMin, inside_counted g)).
Proof.
  intros Hlo Hhi Hx. unfold closeInWin, win_start, win_end.
  rewrite (wrap_int_id (p - iWin g)), (wrap_int_id (p + iWin g)) by done.
  by rewrite clamp_low, clamp_high, Hx.
Qed.

(** What [closeInWin] returns: [-1] exactly when the window holds no
    unvisited location, and otherwise the first of the nearest unvisited
    locations of the window. *)
Lemma closeInWin_characterised (g : globals) (p : Z) :
  well_sized g → 0 ≤ p < lcnCnt g →
  in_int (p - iWin g) → in_int (p + iWin g) →
  ∃ r, closeInWin g p = Ret (r, inside_counted g) ∧
    (r = -1 ↔
       ∀ j, win_start g p ≤ j < win_end g p → ¬ unvisited (locs g) j) ∧
    (r ≠ -1 →
       win_start g p ≤ r < win_end g p ∧ unvisited (locs g) r ∧
       ∀ j, win_start g p ≤ j < win_end g p → unvisited (locs g) j →
         dlt (csq_between (locs g) p j) (csq_between (locs g) p r) = false ∧
         (dlt (csq_between (locs g) p r) (csq_between (locs g) p j) = false
          → r ≤ j)).
Proof.
  intros Hsz Hp Hlo Hhi. red in Hsz.
  destruct (rd_in_range (locs g) p) as [x Hx]; [lia|].
  rewrite (closeInWin_unfold g p x) by done.
  assert (Htok : nemo_Us8ToNcs (ptUs8 x) = nemo_Us8ToNcs (token (locs g) p))
    by (unfold token; by rewrite Hx).
  unfold csq_between. rewrite <- Htok.
  set (pt := nemo_Us8ToNcs (ptUs8 x)).
  set (s := win_start g p). set (e := win_end g p).
  assert (0 ≤ s) by (unfold s, win_start; lia).
  assert (e ≤ Z.of_nat (length (locs g))) by (unfold e, win_end; lia).
  destruct (Z.le_gt_cases s e) as [Hse|Hes].
  - destruct (closeInWin_for_scanned (Z.to_nat (e - s)) (locs g) pt e s
                s NEMO_DOUBLE_HUGE (-1)) as (r & c & -> & Hsc);
      [lia | lia | lia | done | |].
    { left. repeat split. intros j Hj. lia. }
    exists r. split; [done|].
    destruct Hsc as [(-> & _ & Hnone) | (_ & Hr & Hru & Hmin)].
    + split; [done|]. intros Hne. done.
    + split.
      * split; [lia|]. intros Hnone. destruct (Hnone r); done.
      * intros _. done.
  - rewrite closeInWin_for_empty by lia. exists (-1). split; [done|].
    split; [|done]. split; [|done]. intros _ j Hj. lia.
Qed.

(** Over the whole array the loop of [closeInWin] is the scan of the
    brute-force baseline. *)
Lemma closeInWin_for_brute l pt fuel :
  ∀ n csqMin nMin,
    0 ≤ n → (Z.to_nat (Z.of_nat (length l) - n) ≤ fuel)%nat →
    closeInWin_for fuel l pt (Z.of_nat (length l)) n csqMin nMin
    = Ret (brute_scan pt (drop (Z.to_nat n) l) n csqMin nMin).
Proof.
  induction fuel as [|fuel IH]; intros n c m Hn Hfuel.
  - rewrite closeInWin_for_empty by lia. by rewrite drop_ge by lia.
  - simpl. destruct (Z.ltb_spec n (Z.of_nat (length l))) as [Hlt|Hge].
    2:{ by rewrite drop_ge by lia. }
    destruct (rd_in_range l n) as [x Hx]; [lia|]. rewrite Hx.
    apply rd_Some in Hx as [_ Hx]. rewrite (drop_S _ _ _ Hx). simpl.
    replace (S (Z.to_nat n)) with (Z.to_nat (n + 1)) by lia.
    destruct (iOrd x =? -1); simpl; [destruct (dlt _ c)|]; apply IH; lia.
Qed.

End WindowSearch.

(** ** The outward search *)

Lemma not_unvisited_at l n x : rd l n = Some x → iOrd x ≠ -1 → ¬ unvisited l n.
Proof. intros Hx Hv (y & Hy & Hu). congruence. Qed.

Lemma outward_result_step l cnt nLow nHigh nLow' nHigh' r :
  (nLow' = nLow ∧ nLow ≤ 0 ∨ nLow' = nLow - 1 ∧ ¬ unvisited l nLow) →
  (nHigh' = nHigh ∧ cnt ≤ nHigh ∨ nHigh' = nHigh + 1 ∧ ¬ unvisited l nHigh) →
  outward_result l cnt nLow' nHigh' r → outward_result l cnt nLow nHigh r.
Proof.
  intros HL HH [(-> & Hnone) | [(Hu & Hr & Hlo & Hhi) | (Hu & Hr & Hhi & Hlo)]].
  - left. split; [done|]. intros j [Hj|Hj].
    + destruct HL as [[-> ?]|[-> HvL]]; [lia|].
      destruct (decide (j = nLow)) as [->|]; [done|].
      apply Hnone. left. lia.
    + destruct HH as [[-> ?]|[-> HvH]]; [lia|].
      destruct (decide (j = nHigh)) as [->|]; [done|].
      apply Hnone. right. lia.
  - right. left. split; [done|].
    destruct HL as [[-> ?]|[-> HvL]]; [lia|].
    split; [lia|]. split.
    + intros j Hj. destruct (decide (j = nLow)) as [->|]; [done|].
      apply Hlo. lia.
    + intros j Hj Hd. destruct HH as [[-> ?]|[-> HvH]]; [lia|].
      destruct (decide (j = nHigh)) as [->|]; [done|].
      apply Hhi; lia.
  - right. right. split; [done|].
    destruct HH as [[-> ?]|[-> HvH]]; [lia|].
    split; [lia|]. split.
    + intros j Hj. destruct (decide (j = nHigh)) as [->|]; [done|].
      apply Hhi. lia.
    + intros j Hj Hd. destruct HL as [[-> ?]|[-> HvL]]; [lia|].
      destruct (decide (j = nLow)) as [->|]; [done|].
      apply Hlo; lia.
Qed.

(** The loop ends, without leaving the array, with an [outward_result]. *)
Lemma closeOutWin_while_result l cnt fuel :
  cnt = Z.of_nat (length l) →
  ∀ nLow nHigh,
    (Z.to_nat nLow + Z.to_nat (cnt - nHigh) ≤ fuel)%nat →
    nLow < cnt ∨ nLow ≤ 0 → 0 ≤ nHigh →
    ∃ r, closeOutWin_while fuel l cnt nLow nHigh = Ret r
         ∧ outward_result l cnt nLow nHigh r.
Proof.
  intros Hcnt. induction fuel as [|fuel IH]; intros nLow nHigh Hfuel HL HH.
  - exists (-1). simpl.
    destruct (Z.gtb_spec nLow 0); [lia|].
    destruct (Z.ltb_spec nHigh cnt); [lia|]. simpl.
    split; [done|]. left. split; [done|]. intros j [?|?]; lia.
  - simpl. destruct (Z.gtb_spec nLow 0) as [HL0|HL0];
      destruct (Z.ltb_spec nHigh cnt) as [HH0|HH0]; simpl.
    + destruct (rd_in_range l nLow) as [x Hx]; [lia|]. rewrite Hx.
      destruct (Z.eqb_spec (iOrd x) (-1)) as [Hxu|Hxv].
      { exists nLow. split; [done|]. right. left.
        split; [by exists x|]. split; [lia|]. split; intros; lia. }
      destruct (rd_in_range l nHigh) as [y Hy]; [lia|]. rewrite Hy.
      destruct (Z.eqb_spec (iOrd y) (-1)) as [Hyu|Hyv].
      { exists nHigh. split; [done|]. right. right.
        split; [by exists y|]. split; [lia|]. split; [intros; lia|].
        intros j Hj Hd. assert (j = nLow) as -> by lia.
        by eapply not_unvisited_at. }
      destruct (IH (nLow - 1) (nHigh + 1)) as (r & -> & Hr); [lia..|].
      exists r. split; [done|].
      eapply outward_result_step; [| |done].
      * right. split; [done|]. by eapply not_unvisited_at.
      * right. split; [done|]. by eapply not_unvisited_at.
    + destruct (rd_in_range l nLow) as [x Hx]; [lia|]. rewrite Hx.
      destruct (Z.eqb_spec (iOrd x) (-1)) as [Hxu|Hxv].
      { exists nLow. split; [done|]. right. left.
        split; [by exists x|]. split; [lia|]. split; intros; lia. }
      destruct (IH (nLow - 1) nHigh) as (r & -> & Hr); [lia..|].
      exists r. split; [done|].
      eapply outward_result_step; [| |done].
      * right. split; [done|]. by eapply not_unvisited_at.
      * left. done.
    + destruct (rd_in_range l nHigh) as [y Hy]; [lia|]. rewrite Hy.
      destruct (Z.eqb_spec (iOrd y) (-1)) as [Hyu|Hyv].
      { exists nHigh. split; [done|]. right. right.
        split; [by exists y|]. split; [lia|]. split; intros; lia. }
      destruct (IH nLow (nHigh + 1)) as (r & -> & Hr); [lia..|].
      exists r. split; [done|].
      eapply outward_result_step; [| |done].
      * left. split; [done | lia].
      * right. split; [done|]. by eapply not_unvisited_at.
    + exists (-1). split; [done|]. left. split; [done|].
      intros j [?|?]; lia.
Qed.

Lemma closeOutWin_while_done fuel l cnt nLow nHigh :
  nLow ≤ 0 → cnt ≤ nHigh → closeOutWin_while fuel l cnt nLow nHigh = Ret (-1).
Proof.
  intros HL HH. destruct fuel; simpl;
    destruct (Z.gtb_spec nLow 0); destruct (Z.ltb_spec nHigh cnt); done || lia.
Qed.

(** [closeOutWin] in terms of its loop, when the window bounds are [int]s. *)
Lemma closeOutWin_unfold g p :
  in_int (p - iWin g) → in_int (p + iWin g) →
  closeOutWin g p =
    (r ← closeOutWin_while
           (Z.to_nat (win_start g p) + Z.to_nat (lcnCnt g - win_end g p))
           (locs g) (lcnCnt g) (win_start g p) (win_end g p);
     Ret (r, outside_counted g)).
Proof.
  intros Hlo Hhi. unfold closeOutWin, win_start, win_end.
  rewrite (wrap_int_id (p - iWin g)), (wrap_int_id (p + iWin g)) by done.
  by rewrite clamp_low, clamp_high.
Qed.

Lemma window_ints g p :
  0 ≤ p → 0 ≤ iWin g → in_int (p + iWin g) →
  in_int (p - iWin g) ∧ in_int (p + iWin g).
Proof. unfold in_int, INT_MIN, INT_MAX. lia. Qed.

(** [closeOutWin] returns, and what it returns is an [outward_result] for
    the two ends of the window. *)
Lemma closeOutWin_result g p :
  well_sized g → 0 ≤ p < lcnCnt g → 0 ≤ iWin g → in_int (p + iWin g) →
  ∃ r, closeOutWin g p = Ret (r, outside_counted g)
       ∧ outward_result (locs g) (lcnCnt g) (win_start g p) (win_end g p) r.
Proof.
  intros Hsz Hp Hh Hhi.
  destruct (window_ints g p) as [Hlo' Hhi']; [lia | done | done |].
  rewrite closeOutWin_unfold by done.
  destruct (closeOutWin_while_result (locs g) (lcnCnt g)
              (Z.to_nat (win_start g p) + Z.to_nat (lcnCnt g - win_end g p))
              Hsz (win_start g p) (win_end g p)) as (r & -> & Hr).
  - lia.
  - unfold win_start. lia.
  - unfold win_end. lia.
  - by exists r.
Qed.

Lemma probe_order_done rounds cnt low high :
  low ≤ 0 → cnt ≤ high → probe_order rounds cnt low high = [].
Proof.
  revert low high. induction rounds as [|n IH]; intros low high HL HH; [done|].
  simpl. destruct (Z.ltb_spec 0 low); [lia|].
  destruct (Z.ltb_spec high cnt); [lia|]. simpl. by apply IH.
Qed.

Lemma first_unvisited_cons_hit l j js :
  unvisited l j → first_unvisited l (j :: js) = j.
Proof. intros Hu. unfold first_unvisited. by rewrite filter_cons_True. Qed.

Lemma first_unvisited_cons_miss l j js :
  ¬ unvisited l j → first_unvisited l (j :: js) = first_unvisited l js.
Proof. intros Hu. unfold first_unvisited. by rewrite filter_cons_False. Qed.

(** The loop returns the first unvisited index of the probe order. *)
Lemma closeOutWin_while_probe l cnt fuel :
  cnt = Z.of_nat (length l) →
  ∀ nLow nHigh,
    nLow < cnt ∨ nLow ≤ 0 → 0 ≤ nHigh →
    (Z.to_nat nLow + Z.to_nat (cnt - nHigh) ≤ fuel)%nat →
    closeOutWin_while fuel l cnt nLow nHigh
    = Ret (first_unvisited l (probe_order fuel cnt nLow nHigh)).
Proof.
  intros Hcnt. induction fuel as [|fuel IH]; intros nLow nHigh HL HH Hfuel.
  - rewrite closeOutWin_while_done by lia. done.
  - simpl. rewrite (Z.gtb_ltb nLow 0).
    destruct (Z.ltb_spec 0 nLow) as [HL0|HL0];
      destruct (Z.ltb_spec nHigh cnt) as [HH0|HH0]; simpl.
    + destruct (rd_in_range l nLow) as [x Hx]; [lia|]. rewrite Hx.
      destruct (Z.eqb_spec (iOrd x) (-1)) as [Hxu|Hxv].
      { rewrite first_unvisited_cons_hit; [done | by exists x]. }
      rewrite first_unvisited_cons_miss by (by eapply not_unvisited_at).
      destruct (rd_in_range l nHigh) as [y Hy]; [lia|]. rewrite Hy.
      destruct (Z.eqb_spec (iOrd y) (-1)) as [Hyu|Hyv].
      { rewrite first_unvisited_cons_hit; [done | by exists y]. }
      rewrite first_unvisited_cons_miss by (by eapply not_unvisited_at).
      apply IH; lia.
    + destruct (rd_in_range l nLow) as [x Hx]; [lia|]. rewrite Hx.
      destruct (Z.eqb_spec (iOrd x) (-1)) as [Hxu|Hxv].
      { rewrite first_unvisited_cons_hit; [done | by exists x]. }
      rewrite first_unvisited_cons_miss by (by eapply not_unvisited_at).
      apply IH; lia.
    + destruct (rd_in_range l nHigh) as [y Hy]; [lia|]. rewrite Hy.
      destruct (Z.eqb_spec (iOrd y) (-1)) as [Hyu|Hyv].
      { rewrite first_unvisited_cons_hit; [done | by exists y]. }
      rewrite first_unvisited_cons_miss by (by eapply not_unvisited_at).
      apply IH; lia.
    + rewrite probe_order_done by lia. done.
Qed.

(** With the window exhausted, an [outward_result] is the unvisited
    location nearest to the pivot by index among those other than index 0,
    the lower index winning at equal distance. *)
Lemma outward_result_nearest g p r :
  well_sized g → 0 ≤ p < lcnCnt g → 1 ≤ iWin g →
  (∀ j, win_start g p ≤ j < win_end g p → ¬ unvisited (locs g) j) →
  outward_result (locs g) (lcnCnt g) (win_start g p) (win_end g p) r →
  (r = -1 ↔ ∀ j, unvisited (locs g) j → j = 0) ∧
  (r ≠ -1 →
     unvisited (locs g) r ∧ r ≠ 0 ∧
     ∀ j, unvisited (locs g) j → j ≠ 0 →
       Z.abs (r - p) ≤ Z.abs (j - p) ∧
       (Z.abs (j - p) = Z.abs (r - p) → r ≤ j)).
Proof.
  intros Hsz Hp Hh Hwin Hr. red in Hsz.
  assert (Hrange : ∀ j, unvisited (locs g) j → 0 ≤ j < lcnCnt g).
  { intros j Hj%unvisited_range. lia. }
  unfold win_start, win_end in *.
  destruct Hr as [(-> & Hnone) | [(Hu & Hr & Hlo & Hhi) | (Hu & Hr & Hhi & Hlo)]].
  - split; [|done]. split; [|done]. intros _ j Hj.
    pose proof (Hrange j Hj). destruct (decide (j = 0)) as [|Hj0]; [done|].
    destruct (decide (Z.max 0 (p - iWin g) ≤ j < Z.min (lcnCnt g) (p + iWin g)))
      as [Hin|Hout]; [by destruct (Hwin j)|].
    destruct (Hnone j); [|done]. unfold reachable. lia.
  - split; [split; [lia|] |].
    { intros Hall. specialize (Hall r Hu). lia. }
    intros _. split; [done|]. split; [lia|]. intros j Hj Hj0.
    pose proof (Hrange j Hj).
    destruct (decide (Z.max 0 (p - iWin g) ≤ j < Z.min (lcnCnt g) (p + iWin g)))
      as [Hin|Hout]; [by destruct (Hwin j)|].
    destruct (decide (j ≤ Z.max 0 (p - iWin g))) as [Hjlo|Hjhi].
    + destruct (decide (r < j)) as [Hrj|]; [|lia].
      destruct (Hlo j); [lia | done].
    + destruct (decide (j - Z.min (lcnCnt g) (p + iWin g)
                        < Z.max 0 (p - iWin g) - r)) as [Hd|Hd]; [|lia].
      destruct (Hhi j); [lia | lia | done].
  - split; [split; [lia|] |].
    { intros Hall. specialize (Hall r Hu). lia. }
    intros _. split; [done|]. split; [lia|]. intros j Hj Hj0.
    pose proof (Hrange j Hj).
    destruct (decide (Z.max 0 (p - iWin g) ≤ j < Z.min (lcnCnt g) (p + iWin g)))
      as [Hin|Hout]; [by destruct (Hwin j)|].
    destruct (decide (j ≤ Z.max 0 (p - iWin g))) as [Hjlo|Hjhi].
    + destruct (decide (Z.max 0 (p - iWin g) - j
                        ≤ r - Z.min (lcnCnt g) (p + iWin g))) as [Hd|Hd]; [|lia].
      destruct (Hlo j); [lia | lia | done].
    + destruct (decide (j < r)) as [Hjr|]; [|lia].
      destruct (Hhi j); [lia | done].
Qed.

Lemma rd_cons_ne x y rest n : n ≠ 0 → rd (x :: rest) n = rd (y :: rest) n.
Proof.
  intros Hn. unfold rd. destruct (Z.leb_spec 0 n); [|done].
  destruct (Z.to_nat n) eqn:E; [lia | done].
Qed.

(** The loop never reads location 0 and never returns index 0, unless the
    high side starts there. *)
Lemma closeOutWin_while_skips_0 x y rest cnt fuel :
  ∀ nLow nHigh,
    (nHigh < cnt → nHigh ≠ 0) →
    closeOutWin_while fuel (x :: rest) cnt nLow nHigh
    = closeOutWin_while fuel (y :: rest) cnt nLow nHigh
    ∧ closeOutWin_while fuel (x :: rest) cnt nLow nHigh ≠ Ret 0.
Proof.
  induction fuel as [|fuel IH]; intros nLow nHigh HH; simpl.
  { split; [done|]. by destruct (_ || _). }
  destruct (Z.gtb_spec nLow 0) as [HL0|HL0];
    destruct (Z.ltb_spec nHigh cnt) as [HH0|HH0]; simpl; [| | |done].
  - rewrite (rd_cons_ne x y rest nLow), (rd_cons_ne x y rest nHigh) by lia.
    destruct (rd (y :: rest) nLow) as [a|]; [|done].
    destruct (Z.eqb_spec (iOrd a) (-1)); [split; [done | intros [=]; lia]|].
    destruct (rd (y :: rest) nHigh) as [b|] eqn:Hb; [|done].
    destruct (Z.eqb_spec (iOrd b) (-1)); [split; [done | intros [=]; lia]|].
    apply IH. apply rd_range in Hb. lia.
  - rewrite (rd_cons_ne x y rest nLow) by lia.
    destruct (rd (y :: rest) nLow) as [a|]; [|done].
    destruct (Z.eqb_spec (iOrd a) (-1)); [split; [done | intros [=]; lia]|].
    apply IH. lia.
  - rewrite (rd_cons_ne x y rest nHigh) by lia.
    destruct (rd (y :: rest) nHigh) as [b|] eqn:Hb; [|done].
    destruct (Z.eqb_spec (iOrd b) (-1)); [split; [done | intros [=]; lia]|].
    apply IH. apply rd_range in Hb. lia.
Qed.

Lemma visited_count_lt l :
  (visited_count l < length l)%nat → ∃ j, unvisited l j.
Proof.
  unfold visited_count. induction l as [|x l IH]; simpl; [lia|].
  intros Hlt. destruct (decide (iOrd x = -1)) as [Hx|Hx].
  - exists 0. by exists x.
  - rewrite filter_cons_True in Hlt by done. simpl in Hlt.
    destruct IH as (j & y & Hy & Hyu); [lia|].
    exists (j + 1), y. split; [|done].
    apply rd_Some in Hy as [Hj Hy]. apply rd_Some. split; [lia|].
    by replace (Z.to_nat (j + 1)) with (S (Z.to_nat j)) by lia.
Qed.

(** ** The driver loop *)

Section Driver.
Context {oracle : DistanceOracle}.

(** The two searches together find an unvisited location whenever
    location 0 is visited and some location is not. *)
Lemma next_location_found g p :
  well_sized g → window_fits g → 0 ≤ p < lcnCnt g →
  visited (locs g) 0 → (∃ j, unvisited (locs g) j) →
  ∃ r g',
    next_location g p = Ret (r, g')
    ∧ unvisited (locs g) r ∧ r ≠ -1
    ∧ lcnCnt g' = lcnCnt g ∧ locs g' = locs g ∧ iWin g' = iWin g.
Proof.
  intros Hsz [Hh Hfit] Hp H0 (j & Hj).
  assert (Hhi : in_int (p + iWin g))
    by int_bounds.
  destruct (window_ints g p) as [Hlo _]; [lia | done | done |].
  unfold next_location.
  destruct (closeInWin_characterised g p) as (r & -> & Hnone & Hsome);
    [done..|]. simpl.
  destruct (Z.eqb_spec r (-1)) as [->|Hr].
  - destruct (closeOutWin_result (inside_counted g) p)
      as (r & -> & Hres); [done..|].
    exists r, (outside_counted (inside_counted g)). split; [done|].
    assert (Hwin : ∀ i, win_start g p ≤ i < win_end g p
                        → ¬ unvisited (locs g) i) by by apply Hnone.
    destruct Hres as [(-> & Hno) | [(Hu & _) | (Hu & _)]].
    + exfalso. pose proof (unvisited_range _ _ Hj) as Hjr. red in Hsz.
      destruct (decide (j = 0)) as [->|Hj0].
      { by apply (visited_not_unvisited _ _ H0). }
      destruct (decide (win_start g p ≤ j < win_end g p)) as [Hin|Hout].
      { by apply (Hwin j). }
      apply (Hno j); [|done]. unfold reachable.
      change (win_start (inside_counted g) p) with (win_start g p).
      change (win_end (inside_counted g) p) with (win_end g p).
      simpl. lia.
    + repeat split; [done|]. apply unvisited_range in Hu. lia.
    + repeat split; [done|]. apply unvisited_range in Hu. lia.
  - exists r, (inside_counted g). split; [done|].
    destruct (Hsome Hr) as (_ & Hu & _). done.
Qed.

Lemma rd_wr_other l r v i : i ≠ r → 0 ≤ r → rd (wr_iOrd l r v) i = rd l i.
Proof.
  intros Hne Hr. unfold rd, wr_iOrd. destruct (Z.leb_spec 0 i); [|done].
  apply list_lookup_alter_ne. lia.
Qed.

Lemma rd_wr_same l r v x :
  rd l r = Some x → rd (wr_iOrd l r v) r = Some (Loc v (unused x) (ptUs8 x)).
Proof.
  intros [Hr Hx]%rd_Some. apply rd_Some. split; [done|].
  unfold wr_iOrd. by rewrite list_lookup_alter_eq, Hx.
Qed.

Lemma wr_iOrd_tokens l r v : ptUs8 <$> wr_iOrd l r v = ptUs8 <$> l.
Proof.
  unfold wr_iOrd. generalize (Z.to_nat r) as i.
  induction l as [|a l IH]; intros [|i]; simpl; [done..|].
  f_equal. apply IH.
Qed.

(** Storing [v] in an [iOrd] replaces one occurrence of the old value in
    the multiset of orders. *)
Lemma wr_iOrd_orders l r v x :
  rd l r = Some x →
  ∃ rest, iOrd <$> l ≡ₚ iOrd x :: rest
          ∧ iOrd <$> wr_iOrd l r v ≡ₚ v :: rest.
Proof.
  intros [_ Hx]%rd_Some. unfold wr_iOrd. revert Hx.
  generalize (Z.to_nat r) as i.
  induction l as [|a l IH]; intros [|i] Hx; simplify_eq/=.
  - by exists (iOrd <$> l).
  - destruct (IH i Hx) as (rest & H1 & H2).
    exists (iOrd a :: rest). split.
    + rewrite H1. apply perm_swap.
    + rewrite H2. apply perm_swap.
Qed.

(** While location 0 is visited and some location is not, the body of the
    loop finds an unvisited location, gives it order [k] and makes it the
    pivot; the assertion does not fail. *)
Lemma driver_body_step d :
  well_sized (dg d) → window_fits (dg d) → 0 ≤ nPrev d < lcnCnt (dg d) →
  visited (locs (dg d)) 0 → (∃ j, unvisited (locs (dg d)) j) →
  ∃ r g',
    unvisited (locs (dg d)) r
    ∧ lcnCnt g' = lcnCnt (dg d) ∧ iWin g' = iWin (dg d)
    ∧ locs g' = wr_iOrd (locs (dg d)) r (k d)
    ∧ driver_body d
      = Ret (Driver g' r (wrap_int (k d + 1)) (stores d ++ [(r, -1, k d)])).
Proof.
  intros Hsz Hfit Hp H0 Hex.
  destruct (next_location_found (dg d) (nPrev d))
    as (r & g2 & Hnext & Hu & Hr & Hc & Hl & Hw); [done..|].
  unfold driver_body. rewrite Hnext. simpl.
  destruct (Z.eqb_spec r (-1)) as [|_]; [done|].
  destruct Hu as (x & Hx & Hxu).
  exists r, (Globals (lcnCnt g2) (wr_iOrd (locs g2) r (k d)) (iWin g2)
               (nInsideWin g2) (nOutsideWin g2)).
  split; [by exists x|]. simpl. rewrite Hl. repeat split; [done..|].
  unfold assign_iOrd. rewrite Hl, Hx. simpl. by rewrite Hxu.
Qed.

Lemma orders_has_unvisited l (n : Z) (m : nat) :
  iOrd <$> l ≡ₚ seqZ 0 n ++ replicate (S m) (-1) → ∃ j, unvisited l j.
Proof.
  intros Hp.
  assert (Hin : -1 ∈ iOrd <$> l).
  { rewrite Hp. apply elem_of_app. right. apply elem_of_replicate. done. }
  apply list_elem_of_fmap in Hin as (x & Hx & Hxl).
  apply list_elem_of_lookup in Hxl as (i & Hi).
  exists (Z.of_nat i), x. split; [|done].
  apply rd_Some. split; [lia|]. by rewrite Nat2Z.id.
Qed.

Lemma driver_inv_step N h d :
  0 ≤ h → N + h ≤ INT_MAX →
  driver_inv N h d → k d < N →
  ∃ d', driver_body d = Ret d' ∧ driver_inv N h d'
        ∧ k d' = k d + 1
        ∧ ptUs8 <$> locs (dg d') = ptUs8 <$> locs (dg d).
Proof.
  intros Hh Hfit [Hc Hsz Hw Hp Hk H0 Hord Hlen Hnd Hst] Hlt.
  assert (∃ m, Z.to_nat (N - k d) = S m) as [m Hm]
    by (exists (Z.to_nat (N - k d - 1)); lia).
  rewrite Hm in Hord.
  destruct (driver_body_step d) as (r & g' & Hu & Hc' & Hw' & Hl' & ->).
  { done. } { red. lia. } { lia. } { done. }
  { by eapply orders_has_unvisited. }
  assert (Hwrap : wrap_int (k d + 1) = k d + 1)
    by (apply wrap_int_id; unfold in_int, INT_MIN, INT_MAX in *; lia).
  rewrite Hwrap. eexists. split; [done|].
  pose proof (unvisited_range _ _ Hu) as Hr. red in Hsz.
  destruct Hu as (x & Hx & Hxu).
  assert (Hr0 : r ≠ 0).
  { intros ->. destruct H0 as (y & Hy & Hyv). congruence. }
  split; [|split; [done | simpl; rewrite Hl'; apply wr_iOrd_tokens]].
  constructor; simpl.
  - congruence.
  - red. rewrite Hc', Hl'. unfold wr_iOrd. rewrite length_alter. done.
  - congruence.
  - lia.
  - lia.
  - rewrite Hl'. destruct H0 as (y & Hy & Hyv). exists y.
    rewrite rd_wr_other by lia. done.
  - rewrite Hl'.
    destruct (wr_iOrd_orders (locs (dg d)) r (k d) x Hx) as (rest & H1 & H2).
    rewrite H2. rewrite Hxu, Hord in H1.
    rewrite replicate_S, <- Permutation_middle in H1.
    apply Permutation_cons_inv in H1. rewrite <- H1.
    replace (Z.to_nat (N - (k d + 1))) with m by lia.
    rewrite (seqZ_app 0 (k d) 1) by lia.
    change (seqZ (0 + k d) 1) with [0 + k d]. rewrite Z.add_0_l.
    rewrite <- app_assoc. simpl. by rewrite <- Permutation_middle.
  - rewrite length_app. simpl. lia.
  - rewrite !fmap_app. simpl. apply NoDup_app. split; [done|].
    split; [|apply NoDup_singleton].
    intros i Hi Hir. apply list_elem_of_singleton in Hir as ->.
    apply list_elem_of_fmap in Hi as ([i o] & -> & Hi).
    apply list_elem_of_fmap in Hi as ([[i' o'] v] & [= -> ->] & Hi).
    simpl in *. destruct (Hst _ _ _ Hi) as (_ & Hv & y & Hy & Hyv).
    congruence.
  - intros i o v [Hin|Hin]%elem_of_app.
    + destruct (Hst _ _ _ Hin) as (-> & Hv & y & Hy & Hyv).
      split; [done|]. split; [done|]. exists y. split; [|done].
      rewrite Hl', rd_wr_other; [done | | lia]. intros ->. congruence.
    + apply list_elem_of_singleton in Hin as [= -> -> ->].
      split; [done|]. split; [lia|].
      exists (Loc (k d) (unused x) (ptUs8 x)). split; [|done].
      rewrite Hl'. by apply rd_wr_same.
Qed.

(** The loop ends with the invariant and [k = lcnCnt]. *)
Lemma driver_while_completes N h :
  0 ≤ h → N + h ≤ INT_MAX →
  ∀ fuel d,
    driver_inv N h d → (Z.to_nat (N - k d) ≤ fuel)%nat →
    ∃ d', driver_while fuel d = Ret d' ∧ driver_inv N h d' ∧ k d' = N
          ∧ ptUs8 <$> locs (dg d') = ptUs8 <$> locs (dg d).
Proof.
  intros Hh Hfit. induction fuel as [|fuel IH]; intros d Hinv Hfuel.
  - simpl. rewrite (inv_cnt _ _ _ Hinv).
    pose proof (inv_k _ _ _ Hinv).
    destruct (Z.ltb_spec (k d) N); [lia|]. exists d.
    split; [done|]. split; [done|]. split; [lia | done].
  - simpl. rewrite (inv_cnt _ _ _ Hinv).
    pose proof (inv_k _ _ _ Hinv).
    destruct (Z.ltb_spec (k d) N) as [Hlt|Hge].
    2:{ exists d. split; [done|]. split; [done|]. split; [lia | done]. }
    destruct (driver_inv_step N h d) as (d1 & -> & Hinv1 & Hk1 & Htok1);
      [done..|]. simpl.
    destruct (IH d1 Hinv1) as (d' & -> & Hinv' & Hk' & Htok'); [lia|].
    exists d'. split; [done|]. split; [done|]. split; [done | congruence].
Qed.

Lemma unvisited_orders l :
  Forall (λ x, iOrd x = -1) l → iOrd <$> l = replicate (length l) (-1).
Proof. induction 1 as [|x l Hx _ IH]; simpl; [done|]. by f_equal. Qed.

Lemma half_window w :
  MIN_WIN ≤ w ≤ MAX_WIN → 8 ≤ w ÷ 2 ≤ 16000.
Proof.
  unfold MIN_WIN, MAX_WIN. intros Hw. rewrite Z.quot_div_nonneg by lia.
  split; [apply Z.div_le_lower_bound; lia | apply Z.div_le_upper_bound; lia].
Qed.

(** Lines 119-132 of [main] on a freshly loaded array: the loop ends with
    every location visited. *)
Lemma itinerary_completes g :
  well_sized g → 1 ≤ lcnCnt g → window_fits g →
  Forall (λ x, iOrd x = -1) (locs g) →
  ∃ d, itinerary g = Ret d ∧ driver_inv (lcnCnt g) (iWin g) d
       ∧ k d = lcnCnt g
       ∧ ptUs8 <$> locs (dg d) = ptUs8 <$> locs g.
Proof.
  intros Hsz HN [Hh Hfit] Hfresh. red in Hsz.
  destruct (rd_in_range (locs g) 0) as [x Hx]; [lia|].
  assert (Hxu : iOrd x = -1).
  { apply rd_Some in Hx as [_ Hx]. apply list_elem_of_lookup_2 in Hx.
    by apply (proj1 (Forall_forall _ _) Hfresh). }
  unfold itinerary, assign_iOrd. simpl. rewrite Hx. simpl.
  set (g1 := Globals _ _ _ _ _).
  destruct (driver_while_completes (lcnCnt g) (iWin g) Hh Hfit
              (Z.to_nat (lcnCnt g - 1)) (Driver g1 0 1 [(0, iOrd x, 0)]))
    as (d & Hd & Hinv & Hk & Htok); [|simpl; lia|].
  - constructor; simpl; [done| |done|lia|lia| | |done| |].
    + red. simpl. unfold wr_iOrd. by rewrite length_alter.
    + eexists. split; [by apply rd_wr_same|]. done.
    + destruct (wr_iOrd_orders (locs g) 0 0 x Hx) as (rest & H1 & H2).
      rewrite H2. rewrite (unvisited_orders _ Hfresh), Hxu in H1.
      destruct (length (locs g)) as [|n] eqn:Hn; [lia|].
      rewrite replicate_S in H1. apply Permutation_cons_inv in H1.
      rewrite <- H1. replace (Z.to_nat (lcnCnt g - 1)) with n by lia. done.
    + apply NoDup_singleton.
    + intros i o v [= -> -> ->]%list_elem_of_singleton.
      split; [done|]. split; [done|]. eexists.
      split; [by apply rd_wr_same|]. done.
  - exists d. split; [done|]. split; [done|]. split; [done|].
    rewrite Htok. simpl. apply wr_iOrd_tokens.
Qed.

End Driver.

(** ** Start-up and loading *)

Section MainRuns.
(** [atoi] of the C library. *)
Context (atoi : string → Z).

Lemma main_startup_run a0 a1 a2 a3 more w :
  is_Some (fs w !! a1) → a2 ∉ denied w →
  run (main_startup atoi (a0 :: a1 :: a2 :: a3 :: more)) w
  = (if (atoi a3 <? MIN_WIN) || (atoi a3 >? MAX_WIN)
     then Exit (ErrWindowSize MIN_WIN MAX_WIN)
     else Ret (a1, a2, atoi a3 ÷ 2),
     files_opened a1 a2 w).
Proof.
  intros Hin Hout. unfold main_startup, files_opened. simpl.
  rewrite bool_decide_eq_true_2 by done. simpl.
  rewrite decide_False by done. simpl.
  rewrite <- !app_assoc. simpl.
  by destruct ((atoi a3 <? MIN_WIN) || (atoi a3 >? MAX_WIN)).
Qed.

Lemma record_count_small size :
  0 ≤ size ≤ INT_MAX → record_count size = size / 8.
Proof.
  unfold record_count, sizeof_nemoPtUs8, INT_MAX. intros Hs.
  rewrite (Z.mod_small size) by lia.
  apply wrap_int_id. unfold in_int, INT_MIN, INT_MAX.
  assert (0 ≤ size / 8) by (apply Z.div_pos; lia).
  assert (size / 8 ≤ size) by (apply Z.div_le_upper_bound; lia). lia.
Qed.

Lemma main_load_run a1 h w content :
  fs w !! a1 = Some content → Z.of_nat (length content) ≤ INT_MAX →
  ∃ w', run (main_load a1 h) w =
    (if Z.of_nat (length content) / 8 =? 0 then Fault DivByZero
     else if negb (Z.of_nat (length content)
                   `rem` (Z.of_nat (length content) / 8) =? 0)
     then Exit (ErrFileSize (Z.of_nat (length content)) sizeof_nemoPtUs8)
     else Ret (Globals (Z.of_nat (length content) / 8)
                 (load_records (Z.to_nat (Z.of_nat (length content) / 8))
                    content 0) h 0 0), w')
    ∧ fs w' = fs w ∧ denied w' = denied w
    ∧ ∃ evs, trace w' = trace w ++ EvSize a1 :: evs.
Proof.
  intros Hc Hsize. unfold main_load. simpl. rewrite Hc. simpl.
  rewrite (wrap_int_id (Z.of_nat (length content)))
    by int_bounds.
  rewrite record_count_small by lia.
  destruct (_ / 8 =? 0).
  { eexists. split; [done|]. split; [done|]. split; [done|]. by exists []. }
  destruct (negb _); simpl.
  { eexists. split; [done|]. split; [done|]. split; [done|]. by exists []. }
  rewrite Hc. simpl.
  eexists. split; [done|]. split; [done|]. split; [done|].
  rewrite <- !app_assoc. simpl. by eexists.
Qed.

(** What the input holds once both files are open: nothing, if it is
    also the output. *)
Lemma files_opened_input a1 a2 w content :
  fs w !! a1 = Some content →
  fs (files_opened a1 a2 w) !! a1
  = Some (if decide (a1 = a2) then [] else content).
Proof.
  intros Hc. simpl. destruct (decide (a1 = a2)) as [->|Hne].
  - by rewrite lookup_insert_eq.
  - by rewrite lookup_insert_ne.
Qed.

Lemma main_prefix_run a0 a1 a2 a3 more w :
  is_Some (fs w !! a1) → a2 ∉ denied w → MIN_WIN ≤ atoi a3 ≤ MAX_WIN →
  run (main_prefix atoi (a0 :: a1 :: a2 :: a3 :: more)) w
  = run (main_load a1 (atoi a3 ÷ 2)) (files_opened a1 a2 w).
Proof.
  intros Hin Hout Hw.
  unfold main_prefix, mbind, io_bind. cbn [run].
  rewrite main_startup_run by done.
  destruct (Z.ltb_spec (atoi a3) MIN_WIN); [lia|].
  rewrite Z.gtb_ltb. destruct (Z.ltb_spec MAX_WIN (atoi a3)); [lia|].
  done.
Qed.

Lemma main_load_iWin a1 h w g w' :
  run (main_load a1 h) w = (Ret g, w') → iWin g = h.
Proof.
  unfold main_load. simpl.
  destruct (record_count _ =? 0); simpl; [intros [=]|].
  destruct (negb _); simpl; [intros [=]|].
  by intros [= <- _].
Qed.

End MainRuns.

(** ** Sorting a completed store *)

Lemma completed_range l x :
  completed l → x ∈ l → 0 ≤ iOrd x < Z.of_nat (length l).
Proof.
  unfold completed. intros Hc Hx. apply (list_elem_of_fmap_2 iOrd) in Hx.
  rewrite Hc in Hx. apply elem_of_seqZ in Hx. lia.
Qed.

Lemma compIntsIx0_small n a b :
  n ≤ INT_MAX → 0 ≤ iOrd a < n → 0 ≤ iOrd b < n →
  compIntsIx0 a b = iOrd a - iOrd b.
Proof.
  intros Hn Ha Hb. apply wrap_int_id.
  int_bounds.
Qed.

Lemma seqZ_sorted (n : nat) : ∀ m, Sorted Z.le (seqZ m (Z.of_nat n)).
Proof.
  induction n as [|n IH]; intros m; [constructor|].
  rewrite seqZ_cons by lia.
  replace (Z.pred (Z.of_nat (S n))) with (Z.of_nat n) by lia.
  constructor; [apply IH|].
  destruct n as [|n]; [constructor|].
  rewrite seqZ_cons by lia. constructor. lia.
Qed.

(** A list that [qsort] leaves has its orders in increasing order. *)
Lemma sorted_orders n out :
  n ≤ INT_MAX → Forall (λ x, 0 ≤ iOrd x < n) out →
  Sorted (not_after compIntsIx0) out → Sorted Z.le (iOrd <$> out).
Proof.
  intros Hn Hrange Hs. induction Hs as [|a out Hs IH Hhd]; [constructor|].
  apply Forall_cons in Hrange as [Ha Hrange]. simpl.
  constructor; [by apply IH|].
  destruct Hhd as [|b out Hab]; [constructor|]. simpl. constructor.
  apply Forall_cons in Hrange as [Hb _]. unfold not_after in Hab.
  rewrite (compIntsIx0_small n) in Hab by done. lia.
Qed.

Lemma sorted_completed l out :
  Z.of_nat (length l) ≤ INT_MAX → completed l →
  qsort_result compIntsIx0 l out →
  iOrd <$> out = seqZ 0 (Z.of_nat (length l)).
Proof.
  intros Hn Hc [Hperm Hs].
  apply (Sorted_unique Z.le).
  - apply (sorted_orders (Z.of_nat (length l))); [done | | done].
    apply Forall_forall. intros x Hx. rewrite Hperm in Hx.
    by apply completed_range.
  - apply seqZ_sorted.
  - rewrite Hperm. exact Hc.
Qed.

(** Two arrangements of the same locations that show the same orders, all
    different, are the same list. *)
Lemma same_orders_same_list (l1 l2 : list loc) :
  l1 ≡ₚ l2 → NoDup (iOrd <$> l2) → iOrd <$> l1 = iOrd <$> l2 → l1 = l2.
Proof.
  revert l2. induction l1 as [|a l1 IH]; intros [|b l2] Hp Hnd Heq;
    simplify_eq/=; [done|].
  apply NoDup_cons in Hnd as [Hb Hnd].
  assert (a = b) as ->.
  { assert (Ha : a ∈ b :: l2) by (rewrite <- Hp; left).
    apply elem_of_cons in Ha as [->|Ha]; [done|].
    destruct Hb. rewrite <- H. by apply list_elem_of_fmap_2. }
  f_equal. apply IH; [by apply Permutation_cons_inv in Hp | done | done].
Qed.

Lemma wrap_int_total z : wrap_int z ≤ 0 ∨ wrap_int (- z) ≤ 0.
Proof.
  unfold wrap_int.
  pose proof (Z.div_mod (z + 2 ^ 31) (2 ^ 32)).
  pose proof (Z.div_mod (- z + 2 ^ 31) (2 ^ 32)).
  pose proof (Z.mod_pos_bound (z + 2 ^ 31) (2 ^ 32)).
  pose proof (Z.mod_pos_bound (- z + 2 ^ 31) (2 ^ 32)).
  lia.
Qed.

#[global] Instance compIntsIx0_total : Total (not_after compIntsIx0).
Proof.
  intros a b. unfold not_after, compIntsIx0.
  replace (iOrd b - iOrd a) with (- (iOrd a - iOrd b)) by lia.
  apply wrap_int_total.
Qed.

(** [qsort_locs] does what [qsort] is asked to do. *)
Lemma qsort_locs_result l : qsort_result compIntsIx0 l (qsort_locs l).
Proof.
  split; [apply merge_sort_Permutation | apply Sorted_merge_sort, _].
Qed.

(** * The properties *)

(** C1.  On a freshly loaded array of at least one location, with a
    half-window derived from a valid window size, lines 119-132 of [main]
    run to the end of the loop; then [k] is [lcnCnt], the orders held by
    the locations are the integers [0 .. lcnCnt-1], each once, every
    location was stored to exactly once, and each store replaced [-1] by
    the order the location holds at the end. *)
Theorem itinerary_orders_permutation {oracle : DistanceOracle}
    (g : globals) (w : Z) :
  well_sized g → 1 ≤ lcnCnt g → lcnCnt g + MAX_WIN ÷ 2 ≤ INT_MAX →
  MIN_WIN ≤ w ≤ MAX_WIN → iWin g = w ÷ 2 →
  Forall (λ x, iOrd x = -1) (locs g) →
  ∃ d, itinerary g = Ret d ∧ k d = lcnCnt g
    ∧ iOrd <$> locs (dg d) ≡ₚ seqZ 0 (lcnCnt g)
    ∧ (stores d).*1.*1 ≡ₚ seqZ 0 (lcnCnt g)
    ∧ ∀ i o v, (i, o, v) ∈ stores d →
        o = -1 ∧ ∃ x, rd (locs (dg d)) i = Some x ∧ iOrd x = v.
Proof.
  intros Hsz HN Hfit Hw Hh Hfresh.
  pose proof (half_window w Hw) as Hhalf.
  change (MAX_WIN ÷ 2) with 16000 in Hfit.
  destruct (itinerary_completes g) as (d & Hd & Hinv & Hk & _);
    [done | done | red; lia | done |].
  destruct Hinv as [Hc Hsz' _ _ _ _ Hord Hlen Hnd Hst].
  exists d. split; [done|]. split; [done|]. split; [|split].
  - rewrite Hord, Hk, Z.sub_diag. simpl. by rewrite app_nil_r.
  - apply submseteq_length_Permutation.
    + apply NoDup_submseteq; [done|]. intros i Hi.
      apply list_elem_of_fmap in Hi as ([i' o] & -> & Hi).
      apply list_elem_of_fmap in Hi as ([[i o'] v] & [= -> ->] & Hi).
      simpl. destruct (Hst _ _ _ Hi) as (_ & _ & x & Hx & _).
      apply rd_range in Hx. red in Hsz'. apply elem_of_seqZ. lia.
    + rewrite !length_fmap, length_seqZ. lia.
  - intros i o v Hi. destruct (Hst _ _ _ Hi) as (-> & _ & Hx). done.
Qed.

(** The five points of the specification's scenario, window size 16. *)
Lemma itinerary_orders_permutation_witness :
  ∃ d, @itinerary lineOracle five_loaded = Ret d
    ∧ k d = lcnCnt five_loaded
    ∧ iOrd <$> locs (dg d) ≡ₚ seqZ 0 (lcnCnt five_loaded)
    ∧ (stores d).*1.*1 ≡ₚ seqZ 0 (lcnCnt five_loaded)
    ∧ ∀ i o v, (i, o, v) ∈ stores d →
        o = -1 ∧ ∃ x, rd (locs (dg d)) i = Some x ∧ iOrd x = v.
Proof.
  apply (@itinerary_orders_permutation lineOracle five_loaded 16).
  - reflexivity.
  - simpl. lia.
  - vm_compute. discriminate.
  - int_bounds.
  - reflexivity.
  - repeat constructor.
Defined.

(** C2.  For a pivot [p] inside the array and a window whose bounds
    [p - iWin] and [p + iWin] are representable, [closeInWin] returns,
    having only counted the call, an index [r] such that: [r] is [-1]
    exactly when [max(0, p-iWin), min(lcnCnt, p+iWin))] holds no unvisited
    location; otherwise [r] is an unvisited location of that range, no
    unvisited location of the range is nearer to the pivot by proxy
    distance, and every one at the same distance has an index of at least
    [r]. *)
Theorem closeInWin_nearest {oracle : DistanceOracle}
    (g : globals) (p : Z) :
  well_sized g → 0 ≤ p < lcnCnt g →
  in_int (p - iWin g) → in_int (p + iWin g) →
  ∃ r, closeInWin g p = Ret (r, inside_counted g) ∧
    (r = -1 ↔
       ∀ j, win_start g p ≤ j < win_end g p → ¬ unvisited (locs g) j) ∧
    (r ≠ -1 →
       win_start g p ≤ r < win_end g p ∧ unvisited (locs g) r ∧
       ∀ j, win_start g p ≤ j < win_end g p → unvisited (locs g) j →
         dlt (csq_between (locs g) p j) (csq_between (locs g) p r) = false ∧
         (dlt (csq_between (locs g) p r) (csq_between (locs g) p j) = false
          → r ≤ j)).
Proof. apply closeInWin_characterised. Qed.

(** Pivot 0 of [five_started]: the window is the whole array. *)
Lemma closeInWin_nearest_witness :
  ∃ r, @closeInWin lineOracle five_started 0
       = Ret (r, inside_counted five_started) ∧
    (r = -1 ↔
       ∀ j, win_start five_started 0 ≤ j < win_end five_started 0
            → ¬ unvisited (locs five_started) j) ∧
    (r ≠ -1 →
       win_start five_started 0 ≤ r < win_end five_started 0
       ∧ unvisited (locs five_started) r ∧
       ∀ j, win_start five_started 0 ≤ j < win_end five_started 0
            → unvisited (locs five_started) j →
         @dlt lineOracle (csq_between (locs five_started) 0 j)
           (csq_between (locs five_started) 0 r) = false ∧
         (@dlt lineOracle (csq_between (locs five_started) 0 r)
            (csq_between (locs five_started) 0 j) = false → r ≤ j)).
Proof.
  apply (@closeInWin_nearest lineOracle five_started 0).
  - reflexivity.
  - simpl. lia.
  - int_bounds.
  - int_bounds.
Defined.

(** C3, as the code has it.  For a pivot [p] inside the array and a
    half-window of at least 1 with [p + iWin] representable, [closeOutWin]
    returns, having only counted the call, the first unvisited index in
    the order low boundary (while above 0), high boundary (while below
    [lcnCnt]), each moving one step outwards per round, starting from
    [max(0, p-iWin)] and [min(lcnCnt, p+iWin)].  When every location of
    the window is visited, it returns [-1] exactly when no location other
    than the one at index 0 is unvisited, and otherwise an unvisited
    location other than index 0 that is nearest to the pivot by index
    among those, the lower index on equal index distance. *)
Theorem closeOutWin_nearest_by_index (g : globals) (p : Z) :
  well_sized g → 0 ≤ p < lcnCnt g → 1 ≤ iWin g → in_int (p + iWin g) →
  ∃ r, closeOutWin g p = Ret (r, outside_counted g) ∧
    r = first_unvisited (locs g)
          (probe_order
             (Z.to_nat (win_start g p) + Z.to_nat (lcnCnt g - win_end g p))
             (lcnCnt g) (win_start g p) (win_end g p)) ∧
    ((∀ j, win_start g p ≤ j < win_end g p → ¬ unvisited (locs g) j) →
     (r = -1 ↔ ∀ j, unvisited (locs g) j → j = 0) ∧
     (r ≠ -1 →
        unvisited (locs g) r ∧ r ≠ 0 ∧
        ∀ j, unvisited (locs g) j → j ≠ 0 →
          Z.abs (r - p) ≤ Z.abs (j - p) ∧
          (Z.abs (j - p) = Z.abs (r - p) → r ≤ j))).
Proof.
  intros Hsz Hp Hh Hhi.
  destruct (closeOutWin_result g p) as (r & Hr & Hres);
    [done | done | lia | done |].
  exists r. split; [done|]. split.
  - destruct (window_ints g p) as [Hlo _]; [lia | lia | done |].
    rewrite closeOutWin_unfold in Hr by done.
    rewrite (closeOutWin_while_probe (locs g) (lcnCnt g)) in Hr.
    + simpl in Hr. congruence.
    + done.
    + unfold win_start. lia.
    + unfold win_end. lia.
    + lia.
  - intros Hwin. by apply outward_result_nearest.
Qed.

(** Pivot 3 of [window_exhausted]: indices 1 and 4 are unvisited. *)
Lemma closeOutWin_nearest_by_index_witness :
  ∃ r, closeOutWin window_exhausted 3
       = Ret (r, outside_counted window_exhausted) ∧
    r = first_unvisited (locs window_exhausted)
          (probe_order
             (Z.to_nat (win_start window_exhausted 3)
              + Z.to_nat (lcnCnt window_exhausted - win_end window_exhausted 3))
             (lcnCnt window_exhausted) (win_start window_exhausted 3)
             (win_end window_exhausted 3)) ∧
    ((∀ j, win_start window_exhausted 3 ≤ j < win_end window_exhausted 3
           → ¬ unvisited (locs window_exhausted) j) →
     (r = -1 ↔ ∀ j, unvisited (locs window_exhausted) j → j = 0) ∧
     (r ≠ -1 →
        unvisited (locs window_exhausted) r ∧ r ≠ 0 ∧
        ∀ j, unvisited (locs window_exhausted) j → j ≠ 0 →
          Z.abs (r - 3) ≤ Z.abs (j - 3) ∧
          (Z.abs (j - 3) = Z.abs (r - 3) → r ≤ j))).
Proof.
  apply (closeOutWin_nearest_by_index window_exhausted 3).
  - reflexivity.
  - simpl. lia.
  - simpl. lia.
  - int_bounds.
Defined.

(** C3 fails as stated: around pivot 3 with half-window 1 the window
    [2, 4) is visited and the location at index 0, outside the window, is
    unvisited, yet [closeOutWin] returns [-1]. *)
Lemma closeOutWin_misses_index_0 :
  unvisited (locs only_first_unvisited) 0
  ∧ ¬ (win_start only_first_unvisited 3 ≤ 0 < win_end only_first_unvisited 3)
  ∧ (∀ j, win_start only_first_unvisited 3 ≤ j < win_end only_first_unvisited 3
          → ¬ unvisited (locs only_first_unvisited) j)
  ∧ closeOutWin only_first_unvisited 3
    = Ret (-1, outside_counted only_first_unvisited).
Proof.
  split; [by eexists|].
  split; [unfold win_start, win_end; simpl; lia|].
  split; [|done].
  intros j Hj (x & Hx & Hu). unfold win_start, win_end in Hj. simpl in Hj.
  assert (j = 2 ∨ j = 3) as [-> | ->] by lia;
    vm_compute in Hx; injection Hx as <-; simpl in Hu; lia.
Qed.

(** C4.  In a state of the driver loop -- location 0 visited, [k] locations
    visited with [1 <= k < lcnCnt], the pivot inside the array, a
    half-window that fits -- the two searches together return an unvisited
    location of the array; when [closeInWin] returned [-1], [closeOutWin]
    does not; and the body of the loop completes, so that the assertion
    [errorExit] is not reached. *)
Theorem searches_find_unvisited {oracle : DistanceOracle} (d : driver) :
  well_sized (dg d) → window_fits (dg d) →
  0 ≤ nPrev d < lcnCnt (dg d) →
  visited (locs (dg d)) 0 →
  Z.of_nat (visited_count (locs (dg d))) = k d → 1 ≤ k d < lcnCnt (dg d) →
  (∃ r g', next_location (dg d) (nPrev d) = Ret (r, g')
           ∧ 0 ≤ r < lcnCnt (dg d) ∧ unvisited (locs (dg d)) r) ∧
  (∀ g1, closeInWin (dg d) (nPrev d) = Ret (-1, g1) →
         ∃ r g2, closeOutWin g1 (nPrev d) = Ret (r, g2) ∧ r ≠ -1) ∧
  (∃ d', driver_body d = Ret d').
Proof.
  intros Hsz Hfit Hp H0 Hcount Hk.
  assert (Hex : ∃ j, unvisited (locs (dg d)) j).
  { apply visited_count_lt. red in Hsz. lia. }
  destruct (next_location_found (dg d) (nPrev d))
    as (r & g' & Hnext & Hu & Hr & _); [done..|].
  split; [|split].
  - exists r, g'. split; [done|]. split; [|done].
    apply unvisited_range in Hu. red in Hsz. lia.
  - intros g1 Hin. unfold next_location in Hnext. rewrite Hin in Hnext.
    simpl in Hnext. by exists r, g'.
  - destruct (driver_body_step d) as (r' & g'' & _ & _ & _ & _ & ->);
      [done..|]. by eexists.
Qed.

(** The first pass of the loop on [five_started]. *)
Lemma searches_find_unvisited_witness :
  (∃ r g', @next_location lineOracle five_started 0 = Ret (r, g')
           ∧ 0 ≤ r < lcnCnt five_started
           ∧ unvisited (locs five_started) r) ∧
  (∀ g1, @closeInWin lineOracle five_started 0 = Ret (-1, g1) →
         ∃ r g2, closeOutWin g1 0 = Ret (r, g2) ∧ r ≠ -1) ∧
  (∃ d', @driver_body lineOracle (Driver five_started 0 1 [(0, -1, 0)])
         = Ret d').
Proof.
  apply (@searches_find_unvisited lineOracle
           (Driver five_started 0 1 [(0, -1, 0)])).
  - reflexivity.
  - int_bounds.
  - simpl. lia.
  - exists (Loc 0 0 10). split; [reflexivity | simpl; lia].
  - reflexivity.
  - simpl. lia.
Defined.

(** C5.  When the half-window is at least the number of locations (and
    [p + iWin] is representable), the window of [closeInWin] is the whole
    array [0, lcnCnt) and [closeInWin] returns what the unbounded scan of
    the brute-force baseline returns. *)
Theorem closeInWin_wide_is_unbounded {oracle : DistanceOracle}
    (g : globals) (p : Z) :
  well_sized g → 0 ≤ p < lcnCnt g →
  lcnCnt g ≤ iWin g → in_int (p + iWin g) →
  win_start g p = 0 ∧ win_end g p = lcnCnt g ∧
  closeInWin g p
  = (r ← nearest_unbounded (locs g) p; Ret (r, inside_counted g)).
Proof.
  intros Hsz Hp Hwide Hhi. red in Hsz.
  destruct (window_ints g p) as [Hlo _]; [lia | lia | done |].
  assert (Hs : win_start g p = 0) by (unfold win_start; lia).
  assert (He : win_end g p = lcnCnt g) by (unfold win_end; lia).
  split; [done|]. split; [done|].
  destruct (rd_in_range (locs g) p) as [x Hx]; [lia|].
  rewrite (closeInWin_unfold g p x) by done.
  unfold nearest_unbounded. rewrite Hx, Hs, He, Hsz.
  rewrite closeInWin_for_brute by lia. done.
Qed.

(** [five_started] has half-window 8 for 5 locations. *)
Lemma closeInWin_wide_is_unbounded_witness :
  win_start five_started 0 = 0 ∧ win_end five_started 0 = lcnCnt five_started
  ∧ @closeInWin lineOracle five_started 0
    = (r ← @nearest_unbounded lineOracle (locs five_started) 0;
       Ret (r, inside_counted five_started)).
Proof.
  apply (@closeInWin_wide_is_unbounded lineOracle five_started 0).
  - reflexivity.
  - simpl. lia.
  - simpl. lia.
  - int_bounds.
Defined.

(** C6, as the code has it.  When start-up has passed and loading ends in
    a FormatError, the error is the file-size error reporting the size of
    the input and the size of a record, the size of the input is not a
    multiple of the record size, and the output file exists and is empty:
    line 84 created it before the size was looked at. *)
Theorem format_error_on_load (atoi : string → Z)
    (a0 a1 a2 a3 : string) (more : list string)
    (w : world) (content : list byte) (e : error) :
  fs w !! a1 = Some content → Z.of_nat (length content) ≤ INT_MAX →
  a2 ∉ denied w → MIN_WIN ≤ atoi a3 ≤ MAX_WIN →
  (run (main_prefix atoi (a0 :: a1 :: a2 :: a3 :: more)) w).1 = Exit e →
  classify e = FormatError →
  e = ErrFileSize (Z.of_nat (length content)) sizeof_nemoPtUs8
  ∧ Z.of_nat (length content) `mod` sizeof_nemoPtUs8 ≠ 0
  ∧ fs (run (main_prefix atoi (a0 :: a1 :: a2 :: a3 :: more)) w).2 !! a2
    = Some [].
Proof.
  intros Hc Hsize Hout Hw.
  rewrite (main_prefix_run atoi a0 a1 a2 a3 more w) by done.
  pose proof (files_opened_input a1 a2 w content Hc) as Hc'.
  destruct (decide (a1 = a2)) as [->|Hne].
  { destruct (main_load_run a2 (atoi a3 ÷ 2) (files_opened a2 a2 w) [])
      as (w' & -> & _); [done | int_bounds |]. simpl. intros [=]. }
  destruct (main_load_run a1 (atoi a3 ÷ 2) (files_opened a1 a2 w) content)
    as (w' & -> & Hfs & _); [done..|].
  simpl. rewrite Hfs. simpl.
  destruct (Z.eqb_spec (Z.of_nat (length content) / 8) 0) as [|Hq];
    [intros [=]|].
  destruct (Z.eqb_spec (Z.of_nat (length content)
              `rem` (Z.of_nat (length content) / 8)) 0) as [|Hr];
    simpl; [intros [=]|].
  intros [= <-] _. split; [done|]. split; [|by rewrite lookup_insert_eq].
  unfold sizeof_nemoPtUs8. intros Hm. apply Hr.
  rewrite Z.rem_mod_nonneg; [|lia|].
  - apply Z.mod_divide; [lia|].
    exists 8. rewrite (Z.div_mod (Z.of_nat (length content)) 8) at 1 by lia.
    lia.
  - assert (0 ≤ Z.of_nat (length content) / 8) by (apply Z.div_pos; lia).
    lia.
Qed.

(** An input file of 17 bytes. *)
Lemma format_error_on_load_witness :
  ErrFileSize 17 8
  = ErrFileSize (Z.of_nat (length (zeros 17))) sizeof_nemoPtUs8
  ∧ Z.of_nat (length (zeros 17)) `mod` sizeof_nemoPtUs8 ≠ 0
  ∧ fs (run (main_prefix decimal (command_line "100"))
          (world_with_input 17)).2 !! "out.p8b"%string = Some [].
Proof.
  apply (format_error_on_load decimal "nearNextP8bWindow" "in.p8b"
           "out.p8b" "100" [] (world_with_input 17) (zeros 17)
           (ErrFileSize 17 8)).
  - reflexivity.
  - int_bounds.
  - apply not_elem_of_empty.
  - unfold MIN_WIN, MAX_WIN. vm_compute. split; discriminate.
  - vm_compute. reflexivity.
  - reflexivity.
Defined.

(** C6 fails as stated.  An input of 17 bytes is rejected with the
    file-size error, but the output file, absent before the run, exists
    (empty) when the run ends; and an input of 20 bytes, not a multiple of
    the record size either, is not rejected at all: it is loaded as two
    records. *)
Lemma output_created_before_size_check :
  fs (world_with_input 17) !! "out.p8b"%string = None
  ∧ (run (main_prefix decimal (command_line "100")) (world_with_input 17)).1
    = Exit (ErrFileSize 17 8)
  ∧ fs (run (main_prefix decimal (command_line "100"))
          (world_with_input 17)).2 !! "out.p8b"%string = Some []
  ∧ 20 `mod` sizeof_nemoPtUs8 ≠ 0
  ∧ lcnCnt <$> (run (main_prefix decimal (command_line "100"))
                  (world_with_input 20)).1 = Ret 2.
Proof. vm_compute. repeat split; intros [=]. Qed.

(** C7, as the code has it.  With an input file that exists and an output
    file that can be opened, a window-size argument outside [16, 32000]
    ends the run with the window-size error, a ConfigurationError, after
    lines 79-87 have opened the input and created and closed the output,
    and before the input is sized or read; a window-size argument inside
    the bounds lets the run proceed, with [iWin] set to half of it
    (integer division). *)
Theorem window_size_checked (atoi : string → Z)
    (a0 a1 a2 a3 : string) (more : list string)
    (w : world) :
  is_Some (fs w !! a1) → a2 ∉ denied w →
  (atoi a3 < MIN_WIN ∨ MAX_WIN < atoi a3 →
   run (main_prefix atoi (a0 :: a1 :: a2 :: a3 :: more)) w
   = (Exit (ErrWindowSize MIN_WIN MAX_WIN), files_opened a1 a2 w)
   ∧ classify (ErrWindowSize MIN_WIN MAX_WIN) = ConfigurationError) ∧
  (MIN_WIN ≤ atoi a3 ≤ MAX_WIN →
   run (main_startup atoi (a0 :: a1 :: a2 :: a3 :: more)) w
   = (Ret (a1, a2, atoi a3 ÷ 2), files_opened a1 a2 w)
   ∧ ∀ g w', run (main_prefix atoi (a0 :: a1 :: a2 :: a3 :: more)) w
             = (Ret g, w') → iWin g = atoi a3 ÷ 2).
Proof.
  intros Hin Hout.
  pose proof (main_startup_run atoi a0 a1 a2 a3 more w Hin Hout) as Hrun.
  split.
  - intros Hw. split; [|done].
    unfold main_prefix, mbind, io_bind. cbn [run]. rewrite Hrun.
    rewrite Z.gtb_ltb.
    destruct (Z.ltb_spec (atoi a3) MIN_WIN);
      destruct (Z.ltb_spec MAX_WIN (atoi a3)); done || lia.
  - intros Hw.
    assert (Hok : (atoi a3 <? MIN_WIN) || (atoi a3 >? MAX_WIN) = false).
    { rewrite Z.gtb_ltb. destruct (Z.ltb_spec (atoi a3) MIN_WIN); [lia|].
      by destruct (Z.ltb_spec MAX_WIN (atoi a3)); [lia|]. }
    rewrite Hok in Hrun. split; [done|]. intros g w'.
    unfold main_prefix, mbind, io_bind. cbn [run]. rewrite Hrun.
    apply main_load_iWin.
Qed.

(** The window-size argument 4 with an input file of 16 bytes. *)
Lemma window_size_checked_witness :
  (decimal "4" < MIN_WIN ∨ MAX_WIN < decimal "4" →
   run (main_prefix decimal (command_line "4")) (world_with_input 16)
   = (Exit (ErrWindowSize MIN_WIN MAX_WIN),
      files_opened "in.p8b" "out.p8b" (world_with_input 16))
   ∧ classify (ErrWindowSize MIN_WIN MAX_WIN) = ConfigurationError) ∧
  (MIN_WIN ≤ decimal "4" ≤ MAX_WIN →
   run (main_startup decimal (command_line "4")) (world_with_input 16)
   = (Ret ("in.p8b"%string, "out.p8b"%string, decimal "4" ÷ 2),
      files_opened "in.p8b" "out.p8b" (world_with_input 16))
   ∧ ∀ g w', run (main_prefix decimal (command_line "4"))
               (world_with_input 16) = (Ret g, w')
             → iWin g = decimal "4" ÷ 2).
Proof.
  apply (window_size_checked decimal "nearNextP8bWindow" "in.p8b" "out.p8b"
           "4" [] (world_with_input 16)).
  - exists (zeros 16). reflexivity.
  - apply not_elem_of_empty.
Defined.

(** C7 fails as stated.  With the window-size argument 4 the run ends
    with the window-size error only after the input file has been opened
    and the output file has been created. *)
Lemma files_opened_before_window_check :
  decimal "4" = 4
  ∧ (run (main_prefix decimal (command_line "4")) (world_with_input 16)).1
    = Exit (ErrWindowSize 16 32000)
  ∧ trace (run (main_prefix decimal (command_line "4"))
             (world_with_input 16)).2
    = [EvOpenRead "in.p8b"; EvOpenWrite "out.p8b"; EvClose "out.p8b"]
  ∧ fs (world_with_input 16) !! "out.p8b"%string = None
  ∧ fs (run (main_prefix decimal (command_line "4"))
          (world_with_input 16)).2 !! "out.p8b"%string = Some [].
Proof. vm_compute. repeat split. Qed.

(** C8.  On a completed store, what [qsort] with [compIntsIx0] leaves --
    whichever algorithm the library uses -- holds the same locations and
    has at position [i] the location whose order is [i], for every [i];
    and sorting that result again, with any such [qsort] and with
    [qsort_locs] in particular, leaves it as it is. *)
Theorem qsort_completed_idempotent (l out : list loc) :
  Z.of_nat (length l) ≤ INT_MAX → completed l →
  qsort_result compIntsIx0 l out →
  out ≡ₚ l
  ∧ (∀ i, 0 ≤ i < Z.of_nat (length l) →
          ∃ x, rd out i = Some x ∧ iOrd x = i)
  ∧ (∀ out', qsort_result compIntsIx0 out out' → out' = out)
  ∧ qsort_locs out = out.
Proof.
  intros Hn Hc Hq.
  cut (out ≡ₚ l
       ∧ (∀ i, 0 ≤ i < Z.of_nat (length l) →
               ∃ x, rd out i = Some x ∧ iOrd x = i)
       ∧ (∀ out', qsort_result compIntsIx0 out out' → out' = out)).
  { intros (H1 & H2 & H3). repeat split; [done..|].
    apply H3, qsort_locs_result. }
  pose proof (sorted_completed l out Hn Hc Hq) as Hout.
  destruct Hq as [Hperm Hs].
  assert (Hlen : length out = length l) by by rewrite Hperm.
  assert (Hc' : completed out) by (red; by rewrite Hlen, Hperm).
  split; [done|]. split.
  - intros i Hi.
    destruct (rd_in_range out i) as [x Hx]; [lia|]. exists x. split; [done|].
    apply rd_Some in Hx as [_ Hx].
    assert (Hix : (iOrd <$> out) !! Z.to_nat i = Some (iOrd x))
      by by rewrite list_lookup_fmap, Hx.
    rewrite Hout in Hix. apply lookup_seqZ in Hix. lia.
  - intros out' Hq'.
    pose proof (sorted_completed out out') as Hout'.
    rewrite Hlen in Hout'. specialize (Hout' Hn Hc' Hq').
    destruct Hq' as [Hperm' _].
    apply same_orders_same_list; [done | | congruence].
    rewrite Hout. apply NoDup_seqZ.
Qed.

(** [three_completed], sorted by [qsort_locs]. *)
Lemma qsort_completed_idempotent_witness :
  qsort_locs three_completed ≡ₚ three_completed
  ∧ (∀ i, 0 ≤ i < Z.of_nat (length three_completed) →
          ∃ x, rd (qsort_locs three_completed) i = Some x ∧ iOrd x = i)
  ∧ (∀ out', qsort_result compIntsIx0 (qsort_locs three_completed) out'
             → out' = qsort_locs three_completed)
  ∧ qsort_locs (qsort_locs three_completed) = qsort_locs three_completed.
Proof.
  apply (qsort_completed_idempotent three_completed
           (qsort_locs three_completed)).
  - int_bounds.
  - unfold completed. simpl.
    apply (Permutation_cons_app [0; 1] [] 2). reflexivity.
  - apply qsort_locs_result.
Defined.

(** C9, as the code has it.  For a pivot [p >= 0] and a half-window of at
    least 1 with [p + iWin] representable, [closeOutWin] never returns
    index 0 and never reads location 0: replacing that location changes
    nothing in what is returned.  If moreover the pivot is inside the
    array and the location at index 0 is the only unvisited one,
    [closeOutWin] returns [-1]. *)
Theorem closeOutWin_never_index_0 (cnt h c1 c2 p : Z) (x y : loc)
    (rest : list loc) :
  0 ≤ p → 1 ≤ h → in_int (p + h) →
  (∀ g', closeOutWin (Globals cnt (x :: rest) h c1 c2) p ≠ Ret (0, g')) ∧
  returned (closeOutWin (Globals cnt (x :: rest) h c1 c2) p)
  = returned (closeOutWin (Globals cnt (y :: rest) h c1 c2) p) ∧
  (well_sized (Globals cnt (x :: rest) h c1 c2) → p < cnt →
   iOrd x = -1 → (∀ j, unvisited (x :: rest) j → j = 0) →
   returned (closeOutWin (Globals cnt (x :: rest) h c1 c2) p) = Ret (-1)).
Proof.
  intros Hp Hh Hhi.
  set (gx := Globals cnt (x :: rest) h c1 c2).
  set (gy := Globals cnt (y :: rest) h c1 c2).
  destruct (window_ints gx p) as [Hlo _]; [done | simpl; lia | done |].
  assert (Hskip := closeOutWin_while_skips_0 x y rest cnt
            (Z.to_nat (win_start gx p) + Z.to_nat (cnt - win_end gx p))
            (win_start gx p) (win_end gx p)).
  destruct Hskip as [Heq Hne]; [unfold win_end; simpl; lia|].
  split; [|split].
  - intros g'. rewrite closeOutWin_unfold by done. simpl.
    destruct (closeOutWin_while _ _ _ _ _) as [r| | |]; simpl; [|done..].
    intros [= -> _]. done.
  - rewrite !closeOutWin_unfold by done.
    change (win_start gy p) with (win_start gx p).
    change (win_end gy p) with (win_end gx p). simpl. rewrite Heq.
    destruct (closeOutWin_while _ (y :: rest) _ _ _); reflexivity.
  - intros Hsz Hpc Hx Hall.
    destruct (closeOutWin_result gx p) as (r & -> & Hres);
      [done | simpl; lia | simpl; lia | done |]. simpl.
    destruct Hres as [(-> & _) | [(Hu & Hr & _) | (Hu & Hr & _)]]; [done | |].
    + apply Hall in Hu. lia.
    + apply Hall in Hu. unfold win_end in Hr. simpl in Hr. lia.
Qed.

(** Pivot 3 of [only_first_unvisited], and location 0 replaced by a
    visited one. *)
Lemma closeOutWin_never_index_0_witness :
  (∀ g', closeOutWin only_first_unvisited 3 ≠ Ret (0, g')) ∧
  returned (closeOutWin only_first_unvisited 3)
  = returned (closeOutWin
                (Globals 5 [Loc 7 0 10; Loc 0 0 1; Loc 3 0 2; Loc 1 0 9;
                            Loc 2 0 8] 1 0 0) 3) ∧
  (well_sized only_first_unvisited → 3 < 5 →
   iOrd (Loc (-1) 0 10) = -1 →
   (∀ j, unvisited (locs only_first_unvisited) j → j = 0) →
   returned (closeOutWin only_first_unvisited 3) = Ret (-1)).
Proof.
  apply (closeOutWin_never_index_0 5 1 0 0 3 (Loc (-1) 0 10) (Loc 7 0 10)
           [Loc 0 0 1; Loc 3 0 2; Loc 1 0 9; Loc 2 0 8]).
  - lia.
  - lia.
  - int_bounds.
Defined.

(** C9 fails as stated: with half-window 0 the high side starts at the
    pivot, and from pivot 0 [closeOutWin] tests and returns index 0. *)
Lemma closeOutWin_returns_0 :
  closeOutWin single_zero_width 0
  = Ret (0, outside_counted single_zero_width).
Proof. reflexivity. Qed.

(** C10.  When the input file holds at least one byte but fewer than the
    eight of a record, and start-up has passed, the record count computed
    from its size is 0 and the size check divides by it: the run ends in
    the undefined [x % 0], not in the file-size error. *)
Theorem short_file_divides_by_zero (atoi : string → Z)
    (a0 a1 a2 a3 : string)
    (more : list string) (w : world) (content : list byte) :
  fs w !! a1 = Some content → (0 < length content < 8)%nat →
  a2 ∉ denied w → MIN_WIN ≤ atoi a3 ≤ MAX_WIN →
  record_count (Z.of_nat (length content)) = 0 ∧
  (run (main_prefix atoi (a0 :: a1 :: a2 :: a3 :: more)) w).1
  = Fault DivByZero.
Proof.
  intros Hc Hlen Hout Hw.
  split.
  { rewrite record_count_small by int_bounds. apply Z.div_small. lia. }
  rewrite (main_prefix_run atoi a0 a1 a2 a3 more w) by done.
  pose proof (files_opened_input a1 a2 w content Hc) as Hc'.
  set (content' := if decide (a1 = a2) then [] else content) in Hc'.
  assert (Hlen' : (length content' < 8)%nat)
    by (unfold content'; destruct (decide (a1 = a2)); simpl; lia).
  destruct (main_load_run a1 (atoi a3 ÷ 2) (files_opened a1 a2 w) content')
    as (w' & -> & _); [done | int_bounds |].
  by rewrite Z.div_small by lia.
Qed.

(** An input file of 5 bytes. *)
Lemma short_file_divides_by_zero_witness :
  record_count (Z.of_nat (length (zeros 5))) = 0 ∧
  (run (main_prefix decimal (command_line "100")) (world_with_input 5)).1
  = Fault DivByZero.
Proof.
  apply (short_file_divides_by_zero decimal "nearNextP8bWindow" "in.p8b"
           "out.p8b" "100" [] (world_with_input 5) (zeros 5)).
  - reflexivity.
  - simpl. lia.
  - apply not_elem_of_empty.
  - unfold MIN_WIN, MAX_WIN. vm_compute. split; discriminate.
Defined.

(** * Further lemmas *)

(** ** Records and their bytes *)

Lemma byte_value_bounds (b : byte) : 0 ≤ Z.of_N (Byte.to_N b) < 256.
Proof. pose proof (Byte.to_N_bounded b). lia. Qed.

Lemma byte_of_Z_value z : 0 ≤ z < 256 → Z.of_N (Byte.to_N (byte_of_Z z)) = z.
Proof.
  intros Hz. unfold byte_of_Z.
  destruct (Byte.of_N (Z.to_N z)) as [b|] eqn:Hb.
  - apply Byte.to_of_N in Hb. simpl. lia.
  - apply Byte.of_N_None_iff in Hb. lia.
Qed.

Lemma byte_of_Z_of_value (b : byte) : byte_of_Z (Z.of_N (Byte.to_N b)) = b.
Proof. unfold byte_of_Z. by rewrite N2Z.id, Byte.of_to_N. Qed.

Lemma le_decode_bounds bs : 0 ≤ le_decode bs < 256 ^ Z.of_nat (length bs).
Proof.
  induction bs as [|b bs IH]; simpl length; [simpl; lia|].
  rewrite Nat2Z.inj_succ, Z.pow_succ_r by lia.
  pose proof (byte_value_bounds b). simpl. lia.
Qed.

Lemma le_decode_encode n z : le_decode (le_encode n z) = z `mod` 256 ^ Z.of_nat n.
Proof.
  revert z. induction n as [|n IH]; intros z.
  - simpl. by rewrite Z.mod_1_r.
  - cbn [le_encode le_decode]. rewrite IH, byte_of_Z_value
      by (apply Z.mod_pos_bound; lia).
    rewrite Nat2Z.inj_succ, Z.pow_succ_r by lia.
    rewrite (Z.rem_mul_r z 256 (256 ^ Z.of_nat n)) by lia. done.
Qed.

Lemma le_encode_decode bs : le_encode (length bs) (le_decode bs) = bs.
Proof.
  induction bs as [|b bs IH]; [done|].
  pose proof (byte_value_bounds b). cbn [length le_encode le_decode].
  replace ((Z.of_N (Byte.to_N b) + 256 * le_decode bs) `mod` 256)
    with (Z.of_N (Byte.to_N b)).
  2:{ apply (Z.mod_unique _ 256 (le_decode bs)); lia. }
  replace ((Z.of_N (Byte.to_N b) + 256 * le_decode bs) / 256)
    with (le_decode bs).
  2:{ apply (Z.div_unique _ 256 _ (Z.of_N (Byte.to_N b))); lia. }
  by rewrite byte_of_Z_of_value, IH.
Qed.

(** ** Loading *)





Section LoaderRuns.
Context {oracle : DistanceOracle}.
Context (atoi : string → Z) (qsort : list loc → list loc).


End LoaderRuns.

(** ** The driver loop, once more *)

Section DriverLog.
Context {oracle : DistanceOracle}.

Lemma next_location_globals g p :
  well_sized g → window_fits g → 0 ≤ p < lcnCnt g →
  ∃ r g', next_location g p = Ret (r, g')
          ∧ (g' = inside_counted g ∨ g' = outside_counted (inside_counted g)).
Proof.
  intros Hsz [Hh Hfit] Hp.
  assert (Hhi : in_int (p + iWin g)) by int_bounds.
  destruct (window_ints g p) as [Hlo _]; [lia | done | done |].
  unfold next_location.
  destruct (closeInWin_characterised g p) as (r & -> & _); [done..|]. simpl.
  destruct (r =? -1).
  - destruct (closeOutWin_result (inside_counted g) p) as (r' & -> & _);
      [done..|]. eauto.
  - eauto.
Qed.

Lemma driver_log_step N h d d' :
  0 ≤ h → N + h ≤ INT_MAX →
  driver_inv N h d → k d < N → driver_log d →
  driver_body d = Ret d' → driver_log d'.
Proof.
  intros Hh Hfit Hinv Hlt (Hval & Hhd & _ & Hin & Hout) Hbody.
  destruct Hinv as [Hc Hsz Hw Hp Hk H0 Hord Hlen Hnd Hst].
  assert (Hfits : window_fits (dg d)) by (red; lia).
  destruct (next_location_globals (dg d) (nPrev d))
    as (r & g' & Hnext & Hg'); [done | done | lia |].
  assert (Hwrap : ∀ z, 0 ≤ z < N → wrap_int (z + 1) = z + 1)
    by (intros z Hz; apply wrap_int_id; int_bounds).
  unfold driver_body in Hbody. rewrite Hnext in Hbody. simpl in Hbody.
  destruct (r =? -1); [done|].
  unfold assign_iOrd in Hbody.
  destruct (rd (locs g') r) as [x|]; [|done]. simpl in Hbody.
  injection Hbody as <-. unfold driver_log. simpl.
  rewrite (Hwrap (k d)) by lia.
  split; [|split; [|split; [|split]]].
  - rewrite fmap_app, Hval. simpl.
    rewrite (seqZ_app 0 (k d) 1) by lia. by rewrite Z.add_0_l.
  - rewrite !fmap_app. destruct (stores d) as [|s st]; [done|]. done.
  - rewrite !fmap_app. simpl. apply last_snoc.
  - destruct Hg' as [-> | ->]; simpl; rewrite Hin, Hwrap; lia.
  - destruct Hg' as [-> | ->]; simpl; [lia|].
    rewrite (Hwrap (nOutsideWin (dg d))) by lia. lia.
Qed.

Lemma driver_while_log N h :
  0 ≤ h → N + h ≤ INT_MAX →
  ∀ fuel d d',
    driver_inv N h d → driver_log d →
    driver_while fuel d = Ret d' → driver_log d'.
Proof.
  intros Hh Hfit. induction fuel as [|fuel IH]; intros d d' Hinv Hlog; simpl.
  - rewrite (inv_cnt _ _ _ Hinv). destruct (k d <? N); [done|].
    by intros [= <-].
  - rewrite (inv_cnt _ _ _ Hinv). destruct (Z.ltb_spec (k d) N) as [Hlt|];
      [|by intros [= <-]].
    destruct (driver_inv_step N h d) as (d1 & Hb & Hinv1 & _); [done..|].
    rewrite Hb. simpl. apply IH; [done|].
    exact (driver_log_step N h d d1 Hh Hfit Hinv Hlt Hlog Hb).
Qed.

(** The whole of lines 119-132 on a freshly loaded array: the invariant
    and the log at the end of the loop. *)
Lemma itinerary_log g :
  well_sized g → 1 ≤ lcnCnt g → window_fits g →
  Forall (λ x, iOrd x = -1) (locs g) →
  ∃ d, itinerary g = Ret d ∧ driver_inv (lcnCnt g) (iWin g) d
       ∧ k d = lcnCnt g ∧ driver_log d
       ∧ ptUs8 <$> locs (dg d) = ptUs8 <$> locs g.
Proof.
  intros Hsz HN Hfit Hfresh.
  destruct (itinerary_completes g) as (d & Hd & Hinv & Hk & Htok); [done..|].
  exists d. split; [done|]. split; [done|]. split; [done|]. split; [|done].
  destruct Hfit as [Hh Hfit]. red in Hsz.
  unfold itinerary, assign_iOrd in Hd. simpl in Hd.
  destruct (rd_in_range (locs g) 0) as [x Hx]; [lia|].
  rewrite Hx in Hd. simpl in Hd.
  eapply (driver_while_log (lcnCnt g) (iWin g) Hh Hfit); [| |exact Hd].
  - assert (Hxu : iOrd x = -1).
    { apply rd_Some in Hx as [_ Hx]. apply list_elem_of_lookup_2 in Hx.
      by apply (proj1 (Forall_forall _ _) Hfresh). }
    constructor; simpl; [done| |done|lia|lia| | |done| |].
    + red. simpl. unfold wr_iOrd. by rewrite length_alter.
    + eexists. split; [by apply rd_wr_same|]. done.
    + destruct (wr_iOrd_orders (locs g) 0 0 x Hx) as (rest & H1 & H2).
      rewrite H2. rewrite (unvisited_orders _ Hfresh), Hxu in H1.
      destruct (length (locs g)) as [|n] eqn:Hn; [lia|].
      rewrite replicate_S in H1. apply Permutation_cons_inv in H1.
      rewrite <- H1. replace (Z.to_nat (lcnCnt g - 1)) with n by lia. done.
    + apply NoDup_singleton.
    + intros i o v [= -> -> ->]%list_elem_of_singleton.
      split; [by rewrite Hxu|]. split; [done|]. eexists.
      split; [by apply rd_wr_same|]. done.
  - red. simpl. repeat split; lia.
Qed.

End DriverLog.

(** ** From the orders to the output *)

Lemma same_key_same_element {A B : Type} (f : A → B) (l : list A) x y :
  NoDup (f <$> l) → x ∈ l → y ∈ l → f x = f y → x = y.
Proof.
  induction l as [|a l IH]; intros Hnd Hx Hy Hf; [by apply elem_of_nil in Hx|].
  simpl in Hnd. apply NoDup_cons in Hnd as [Ha Hnd].
  apply elem_of_cons in Hx as [->|Hx]; apply elem_of_cons in Hy as [->|Hy].
  - done.
  - destruct Ha. rewrite Hf. by apply list_elem_of_fmap_2.
  - destruct Ha. rewrite <- Hf. by apply list_elem_of_fmap_2.
  - by apply IH.
Qed.

Lemma token_ext l l' i :
  ptUs8 <$> l = ptUs8 <$> l' → token l i = token l' i.
Proof.
  intros Heq. unfold token, rd. destruct (0 <=? i); [|done].
  assert (H := f_equal (λ t, t !! Z.to_nat i) Heq). simpl in H.
  rewrite !list_lookup_fmap in H.
  destruct (l !! Z.to_nat i), (l' !! Z.to_nat i); simplify_eq/=; done.
Qed.

(** The array sorted for output shows the tokens in the order in which
    the locations were given their orders. *)
Lemma sorted_follows_stores N h d out :
  N ≤ INT_MAX → driver_inv N h d → k d = N → driver_log d →
  qsort_result compIntsIx0 (locs (dg d)) out →
  ptUs8 <$> out = token (locs (dg d)) <$> (stores d).*1.*1.
Proof.
  intros HN Hinv Hk (Hval & _) Hq.
  destruct Hinv as [Hc Hsz _ _ _ _ Hord Hlen Hnd Hst]. red in Hsz.
  assert (Hcomp : completed (locs (dg d))).
  { red. rewrite Hord, Hk, Z.sub_diag, <- Hsz, Hc. simpl. by rewrite app_nil_r. }
  assert (HlenL : Z.of_nat (length (locs (dg d))) ≤ INT_MAX) by lia.
  pose proof (sorted_completed _ _ HlenL Hcomp Hq) as Hout.
  destruct Hq as [Hperm _].
  assert (HndO : NoDup (iOrd <$> locs (dg d))).
  { unfold completed in Hcomp. rewrite Hcomp. apply NoDup_seqZ. }
  apply list_eq. intros j. rewrite !list_lookup_fmap.
  destruct (out !! j) as [x|] eqn:Hx; simpl.
  - assert (Hj : (j < length (stores d))%nat).
    { apply lookup_lt_Some in Hx. rewrite Hperm in Hx. lia. }
    destruct (lookup_lt_is_Some_2 _ _ Hj) as [[[i o] v] Hs]. rewrite Hs. simpl.
    f_equal.
    assert (Hv : v = Z.of_nat j).
    { assert (H := f_equal (λ t, t !! j) Hval). simpl in H.
      rewrite list_lookup_fmap, Hs in H. simpl in H. symmetry in H.
      apply lookup_seqZ in H. lia. }
    assert (Hxo : iOrd x = Z.of_nat j).
    { assert (H := f_equal (λ t, t !! j) Hout). simpl in H.
      rewrite list_lookup_fmap, Hx in H. simpl in H. symmetry in H.
      apply lookup_seqZ in H. lia. }
    destruct (Hst i o v) as (_ & _ & y & Hy & Hyv);
      [by eapply list_elem_of_lookup_2|].
    unfold token. rewrite Hy. simpl. f_equal.
    apply (same_key_same_element iOrd (locs (dg d))); [done | | | lia].
    + rewrite <- Hperm. by eapply list_elem_of_lookup_2.
    + apply rd_Some in Hy as [_ Hy]. by eapply list_elem_of_lookup_2.
  - apply lookup_ge_None in Hx. rewrite Hperm in Hx.
    rewrite (proj2 (lookup_ge_None (stores d) j)); [done|]. lia.
Qed.

(** ** Writing the output *)



Lemma io_bind_run {A B : Type} (m : io A) (f : A → io B) w :
  run (m ≫= f) w
  = match run m w with
    | (Ret a, w') => run (f a) w'
    | (Exit e, w') => (Exit e, w')
    | (Fault u, w') => (Fault u, w')
    | (Fuel, w') => (Fuel, w')
    end.
Proof. done. Qed.

Section StartupRuns.
Context {oracle : DistanceOracle}.
Context (atoi : string → Z) (qsort : list loc → list loc).

Lemma main_startup_usage argv w :
  (length argv < 4)%nat → run (main_startup atoi argv) w = (Exit ErrUsage, w).
Proof.
  intros Hlen. destruct argv as [|a0 [|a1 [|a2 [|a3 more]]]]; simpl in *;
    done || lia.
Qed.

Lemma main_startup_no_input a0 a1 a2 a3 more w :
  fs w !! a1 = None →
  run (main_startup atoi (a0 :: a1 :: a2 :: a3 :: more)) w
  = (Exit (ErrOpenInput a1),
     World (fs w) (denied w) (trace w ++ [EvOpenRead a1])).
Proof.
  intros Hin. unfold main_startup. simpl.
  rewrite bool_decide_eq_false_2; [done|]. rewrite Hin. by intros [].
Qed.

Lemma main_startup_no_output a0 a1 a2 a3 more w :
  is_Some (fs w !! a1) → a2 ∈ denied w →
  run (main_startup atoi (a0 :: a1 :: a2 :: a3 :: more)) w
  = (Exit (ErrOpenOutput a2),
     World (fs w) (denied w) (trace w ++ [EvOpenRead a1; EvOpenWrite a2])).
Proof.
  intros Hin Hout. unfold main_startup. simpl.
  rewrite bool_decide_eq_true_2 by done. simpl.
  rewrite decide_True by done. simpl. by rewrite <- app_assoc.
Qed.

(** [main] stops where its start-up does. *)
Lemma main_stops_with_startup argv w e w' :
  run (main_startup atoi argv) w = (Exit e, w') →
  run (main atoi qsort argv) w = (Exit e, w').
Proof. intros H. unfold main. by rewrite io_bind_run, H. Qed.

Lemma main_after_startup a0 a1 a2 a3 more w :
  is_Some (fs w !! a1) → a2 ∉ denied w → MIN_WIN ≤ atoi a3 ≤ MAX_WIN →
  run (main atoi qsort (a0 :: a1 :: a2 :: a3 :: more)) w
  = run (g ← main_load a1 (atoi a3 ÷ 2);
         d ← lift (itinerary g);
         main_output a2
           (Globals (lcnCnt (dg d)) (qsort (locs (dg d))) (iWin (dg d))
              (nInsideWin (dg d)) (nOutsideWin (dg d))))
      (files_opened a1 a2 w).
Proof.
  intros Hin Hout Hw. unfold main.
  rewrite io_bind_run, main_startup_run by done.
  destruct (Z.ltb_spec (atoi a3) MIN_WIN); [lia|].
  rewrite Z.gtb_ltb. destruct (Z.ltb_spec MAX_WIN (atoi a3)); [lia|].
  done.
Qed.


End StartupRuns.



Section WholeRun.
Context {oracle : DistanceOracle}.
Context (atoi : string → Z) (qsort : list loc → list loc).



End WholeRun.

(** On the values an [iOrd] field takes, [-1] and the orders (which are
    below [lcnCnt]), the subtraction of [compIntsIx0] does not overflow. *)
Lemma compIntsIx0_orders a b :
  -1 ≤ iOrd a < INT_MAX → -1 ≤ iOrd b < INT_MAX →
  compIntsIx0 a b = iOrd a - iOrd b.
Proof. intros Ha Hb. apply wrap_int_id. int_bounds. Qed.

(** ** The brute-force loop *)

Lemma rdU_Some l n x : rdU l n = Some x ↔ 0 ≤ n ∧ l !! Z.to_nat n = Some x.
Proof.
  unfold rdU. destruct (Z.leb_spec 0 n); [tauto|].
  split; [done | intros [? _]; lia].
Qed.

Lemma rdU_in_range l n : 0 ≤ n < Z.of_nat (length l) → is_Some (rdU l n).
Proof.
  intros Hn. unfold rdU. destruct (Z.leb_spec 0 n); [|lia].
  apply lookup_lt_is_Some_2. lia.
Qed.

Lemma rd_fresh l n : rd (fresh l) n = (λ t, Loc (-1) 0 t) <$> rdU l n.
Proof.
  unfold rd, rdU, fresh. destruct (0 <=? n); [|done].
  by rewrite list_lookup_fmap.
Qed.

Section BruteForceLoop.
Context {oracle : DistanceOracle}.

(** The inner loop is the loop of [closeInWin] on an array in which
    nothing is visited. *)
Lemma bf_inner_closeInWin_for fuel l pt cnt :
  ∀ nn nld nx,
    bf_inner fuel l pt cnt nn nld nx
    = closeInWin_for fuel (fresh l) pt cnt nn nld nx.
Proof.
  induction fuel as [|fuel IH]; intros nn nld nx; simpl; [done|].
  destruct (nn <? cnt); [|done]. rewrite rd_fresh.
  destruct (rdU l nn) as [c|]; simpl; [|done].
  destruct (dlt _ nld); apply IH.
Qed.

Lemma unvisited_fresh l j : 0 ≤ j < Z.of_nat (length l) → unvisited (fresh l) j.
Proof.
  intros Hj. destruct (rdU_in_range l j Hj) as [c Hc].
  exists (Loc (-1) 0 c). by rewrite rd_fresh, Hc.
Qed.

Lemma token_fresh l j c : rdU l j = Some c → token (fresh l) j = c.
Proof. intros Hc. unfold token. by rewrite rd_fresh, Hc. Qed.

(** The inner loop ends with the first of the nearest candidates. *)
Lemma bf_inner_nearest l pt s :
  0 ≤ s < Z.of_nat (length l) →
  ∃ r b, bf_inner (Z.to_nat (Z.of_nat (length l) - s)) l pt
           (Z.of_nat (length l)) s NEMO_DOUBLE_HUGE (-1) = Ret r
    ∧ s ≤ r < Z.of_nat (length l) ∧ rdU l r = Some b
    ∧ ∀ j c, s ≤ j → rdU l j = Some c →
        dlt (NEMO_ChordSq3 pt (nemo_Us8ToNcs c))
            (NEMO_ChordSq3 pt (nemo_Us8ToNcs b)) = false.
Proof.
  intros Hs. rewrite bf_inner_closeInWin_for.
  destruct (closeInWin_for_scanned (Z.to_nat (Z.of_nat (length l) - s))
              (fresh l) pt (Z.of_nat (length l)) s s NEMO_DOUBLE_HUGE (-1))
    as (r & c & -> & Hsc); [lia | lia | lia | | |].
  { unfold fresh. by rewrite length_fmap. }
  { left. repeat split. intros j Hj. lia. }
  destruct Hsc as [(_ & _ & Hnone) | (_ & Hr & _ & Hmin)].
  { destruct (Hnone s); [lia|]. by apply unvisited_fresh. }
  destruct (rdU_in_range l r) as [b Hb]; [lia|].
  exists r, b. split; [done|]. split; [done|]. split; [done|].
  intros j c' Hj Hc'.
  assert (Hjr : 0 ≤ j < Z.of_nat (length l)).
  { apply rdU_Some in Hc' as [? Hc']. apply lookup_lt_Some in Hc'. lia. }
  destruct (Hmin j) as [Hnear _]; [lia | by apply unvisited_fresh |].
  unfold csq_to in Hnear.
  by rewrite (token_fresh l j c'), (token_fresh l r b) in Hnear.
Qed.

End BruteForceLoop.

(** What the exchange of [l !! i] and [l !! j] leaves, for [i <= j]. *)
Lemma swap_insert (l : list Z) (i j : nat) x y :
  (i ≤ j)%nat → l !! i = Some x → l !! j = Some y →
  length (<[j := x]> (<[i := y]> l)) = length l
  ∧ take i (<[j := x]> (<[i := y]> l)) = take i l
  ∧ <[j := x]> (<[i := y]> l) !! i = Some y
  ∧ <[j := x]> (<[i := y]> l) ≡ₚ l.
Proof.
  intros Hij Hx Hy.
  assert (Hi : (i < length l)%nat) by by eapply lookup_lt_Some.
  split; [by rewrite !length_insert|]. split.
  { rewrite take_insert_ge by lia. by rewrite take_insert_ge by lia. }
  split; [|by apply Permutation_insert_swap].
  destruct (decide (i = j)) as [->|Hne].
  - assert (x = y) as -> by congruence.
    by rewrite list_lookup_insert_eq by (by rewrite length_insert).
  - rewrite list_lookup_insert_ne by done.
    by rewrite list_lookup_insert_eq by done.
Qed.

Lemma take_eq_le {A : Type} (l l' : list A) (a b : nat) :
  (a ≤ b)%nat → take b l = take b l' → take a l = take a l'.
Proof.
  intros Hab Heq. rewrite <- (Nat.min_l a b) by done.
  by rewrite <- !take_take, Heq.
Qed.

Lemma take_eq_lookup {A : Type} (l l' : list A) (i n : nat) :
  (i < n)%nat → take n l = take n l' → l !! i = l' !! i.
Proof.
  intros Hi Heq.
  rewrite <- (lookup_take_lt l n i), <- (lookup_take_lt l' n i) by done.
  by rewrite Heq.
Qed.

Lemma take_eq_drop_perm {A : Type} (l l' : list A) (n : nat) :
  take n l = take n l' → l ≡ₚ l' → drop n l ≡ₚ drop n l'.
Proof.
  intros Heq Hp. rewrite <- (take_drop n l), <- (take_drop n l'), Heq in Hp.
  by apply Permutation_app_inv_l in Hp.
Qed.

Section BruteForceOuter.
Context {oracle : DistanceOracle}.

(** From [n] on the outer loop runs to its end: it rearranges the array
    behind position [n] and leaves every second position, from [n] on,
    followed by the nearest of the locations behind it. *)
Lemma bf_outer_result cnt fuel :
  ∀ l n,
    cnt = Z.of_nat (length l) → 0 ≤ n → (Z.to_nat (cnt - 2 - n) ≤ fuel)%nat →
    ∃ l', bf_outer fuel l cnt n = Ret (BfDone l')
      ∧ l' ≡ₚ l
      ∧ take (S (Z.to_nat n)) l' = take (S (Z.to_nat n)) l
      ∧ ∀ i : nat, n + 2 * Z.of_nat i < cnt - 2 →
          bf_greedy_at l' (Z.to_nat n + 2 * i).
Proof.
  induction fuel as [|fuel IH]; intros l n Hcnt Hn Hfuel.
  - simpl. destruct (Z.ltb_spec n (cnt - 2)); [lia|].
    exists l. repeat split; [done..|]. intros i Hi. lia.
  - simpl. destruct (Z.ltb_spec n (cnt - 2)) as [Hlt|Hge].
    2:{ exists l. repeat split; [done..|]. intros i Hi. lia. }
    destruct (rdU_in_range l n) as [a Ha]; [lia|]. rewrite Ha.
    destruct (bf_inner_nearest l (nemo_Us8ToNcs a) (n + 1))
      as (r & b & Hinner & Hr & Hb & Hnear); [lia|].
    rewrite Hcnt, Hinner. simpl.
    destruct (Z.eqb_spec r (-1)) as [|_]; [lia|].
    destruct (rdU_in_range l (n + 1)) as [x Hx]; [lia|].
    unfold bf_swap. rewrite Hx, Hb. simpl.
    set (l1 := <[Z.to_nat r := x]> (<[Z.to_nat (n + 1) := b]> l)).
    apply rdU_Some in Ha as [_ Ha]. apply rdU_Some in Hx as [_ Hx].
    pose proof Hb as Hb'. apply rdU_Some in Hb' as [_ Hb'].
    destruct (swap_insert l (Z.to_nat (n + 1)) (Z.to_nat r) x b)
      as (Hlen1 & Htake1 & Hat1 & Hperm1); [lia | done | done |].
    fold l1 in Hlen1, Htake1, Hat1, Hperm1.
    replace (Z.to_nat (n + 1)) with (S (Z.to_nat n)) in * by lia.
    rewrite <- Hcnt.
    destruct (IH l1 (n + 1 + 1)) as (l' & -> & Hperm & Htake & Hgreedy);
      [lia | lia | lia |].
    replace (Z.to_nat (n + 1 + 1)) with (S (S (Z.to_nat n))) in * by lia.
    exists l'. split; [done|]. split; [by rewrite Hperm|].
    assert (Htake' : take (S (Z.to_nat n)) l' = take (S (Z.to_nat n)) l).
    { rewrite <- Htake1. apply (take_eq_le _ _ _ (S (S (S (Z.to_nat n)))));
        [lia | done]. }
    split; [done|].
    intros [|i] Hi.
    + rewrite Nat.add_0_r. intros a' b' c Ha' Hb'' Hc.
      rewrite (take_eq_lookup l' l (Z.to_nat n) (S (Z.to_nat n))), Ha in Ha'
        by (done || lia).
      rewrite (take_eq_lookup l' l1 (S (Z.to_nat n)) (S (S (S (Z.to_nat n))))),
        Hat1 in Hb'' by (done || lia).
      simplify_eq.
      rewrite (take_eq_drop_perm l' l (S (Z.to_nat n))) in Hc;
        [|done | by rewrite Hperm].
      apply list_elem_of_lookup in Hc as (j & Hj). rewrite lookup_drop in Hj.
      apply (Hnear (n + 1 + Z.of_nat j)); [lia|].
      apply rdU_Some. split; [lia|].
      by replace (Z.to_nat (n + 1 + Z.of_nat j)) with (S (Z.to_nat n) + j)%nat
        by lia.
    + assert (Hi' : n + 1 + 1 + 2 * Z.of_nat i < cnt - 2) by lia.
      specialize (Hgreedy i Hi').
      by replace (S (S (Z.to_nat n)) + 2 * i)%nat
        with (Z.to_nat n + 2 * S i)%nat in Hgreedy by lia.
Qed.

Lemma bf_itinerary_result l :
  ∃ l', bf_itinerary l (Z.of_nat (length l)) = Ret (BfDone l')
    ∧ l' ≡ₚ l ∧ head l' = head l
    ∧ ∀ i : nat, (2 * i + 2 < length l)%nat → bf_greedy_at l' (2 * i).
Proof.
  destruct (bf_outer_result (Z.of_nat (length l))
              (Z.to_nat (Z.of_nat (length l))) l 0)
    as (l' & Hrun & Hperm & Htake & Hgreedy); [done | lia | lia |].
  exists l'. split; [done|]. split; [done|]. split.
  - simpl in Htake. destruct l, l'; simplify_eq/=; done.
  - intros i Hi. apply (Hgreedy i). lia.
Qed.

End BruteForceOuter.

Lemma stores_entry d (j : nat) i :
  (stores d).*2 = seqZ 0 (k d) → (stores d).*1.*1 !! j = Some i →
  ∃ o, stores d !! j = Some (i, o, Z.of_nat j).
Proof.
  intros Hval Hi. rewrite !list_lookup_fmap in Hi.
  destruct (stores d !! j) as [[[i' o] v]|] eqn:Hs; simplify_eq/=.
  exists o. do 2 f_equal.
  assert (H := f_equal (λ t, t !! j) Hval). simpl in H.
  rewrite list_lookup_fmap, Hs in H. simpl in H. symmetry in H.
  apply lookup_seqZ in H. lia.
Qed.

Section MainErrors.
Context {oracle : DistanceOracle}.
Context (atoi : string → Z) (qsort : list loc → list loc).

Lemma main_same_path a0 a a3 more w :
  is_Some (fs w !! a) → a ∉ denied w → MIN_WIN ≤ atoi a3 ≤ MAX_WIN →
  ∃ w', run (main atoi qsort (a0 :: a :: a :: a3 :: more)) w
        = (Fault DivByZero, w')
        ∧ fs w' = <[a := []]> (fs w).
Proof.
  intros [content Hc] Hout Hw. rewrite main_after_startup by done.
  pose proof (files_opened_input a a w content Hc) as Hc'.
  rewrite decide_True in Hc' by done.
  destruct (main_load_run a (atoi a3 ÷ 2) (files_opened a a w) [])
    as (w1 & Hload & Hfs & _); [done | int_bounds |].
  exists w1. split; [|done]. by rewrite io_bind_run, Hload.
Qed.

End MainErrors.

(** * Further properties *)

(** X1.  The eight bytes [fwrite] puts out for a token that was read by
    [fread] are the bytes that were read; a token read from [n] bytes is
    below [256 ^ n]. *)
Theorem record_bytes_round_trip (bs : list byte) :
  le_encode (length bs) (le_decode bs) = bs
  ∧ 0 ≤ le_decode bs < 256 ^ Z.of_nat (length bs).
Proof. split; [apply le_encode_decode | apply le_decode_bounds]. Qed.

(** X2.  A [nemoPtUs8] value survives being written and read back. *)
Theorem token_round_trip (z : Z) :
  0 ≤ z < 2 ^ 64 → le_decode (le_encode 8 z) = z.
Proof.
  intros Hz. rewrite le_decode_encode. apply Z.mod_small.
  by change (256 ^ Z.of_nat 8) with (2 ^ 64).
Qed.

Lemma token_round_trip_witness : le_decode (le_encode 8 10) = 10.
Proof. apply (token_round_trip 10). lia. Defined.



(** X4.  With fewer than three arguments after the program name, [main]
    ends in the usage error and touches no file. *)
Theorem main_usage_error {oracle : DistanceOracle}
    (atoi : string → Z) (qsort : list loc → list loc)
    (argv : list string) (w : world) :
  (length argv < 4)%nat →
  run (main atoi qsort argv) w = (Exit ErrUsage, w).
Proof.
  intros Hlen. apply main_stops_with_startup.
  by apply main_startup_usage.
Qed.

Lemma main_usage_error_witness :
  run (@main lineOracle decimal qsort_locs
         ["nearNextP8bWindow"; "in.p8b"; "out.p8b"]%string) world_five
  = (Exit ErrUsage, world_five).
Proof.
  apply (@main_usage_error lineOracle decimal qsort_locs
           ["nearNextP8bWindow"; "in.p8b"; "out.p8b"]%string world_five).
  simpl. lia.
Defined.

(** X5.  When the input file does not exist, [main] ends in the error of
    line 80 after the one attempt to open it: no file is created or
    changed, the output file included. *)
Theorem main_missing_input {oracle : DistanceOracle}
    (atoi : string → Z) (qsort : list loc → list loc)
    (a0 a1 a2 a3 : string) (more : list string) (w : world) :
  fs w !! a1 = None →
  run (main atoi qsort (a0 :: a1 :: a2 :: a3 :: more)) w
  = (Exit (ErrOpenInput a1),
     World (fs w) (denied w) (trace w ++ [EvOpenRead a1])).
Proof.
  intros Hin. apply main_stops_with_startup.
  by apply main_startup_no_input.
Qed.

Lemma main_missing_input_witness :
  run (@main lineOracle decimal qsort_locs
         ["nearNextP8bWindow"; "none.p8b"; "out.p8b"; "100"]%string)
    world_five
  = (Exit (ErrOpenInput "none.p8b"),
     World (fs world_five) (denied world_five)
       (trace world_five ++ [EvOpenRead "none.p8b"])).
Proof.
  apply (@main_missing_input lineOracle decimal qsort_locs
           "nearNextP8bWindow" "none.p8b" "out.p8b" "100" [] world_five).
  reflexivity.
Defined.

(** X6.  When the input file exists and the output file cannot be opened
    for writing, [main] ends in the error of line 85 after the two
    attempts to open; no file is created or changed. *)
Theorem main_output_denied {oracle : DistanceOracle}
    (atoi : string → Z) (qsort : list loc → list loc)
    (a0 a1 a2 a3 : string) (more : list string) (w : world) :
  is_Some (fs w !! a1) → a2 ∈ denied w →
  run (main atoi qsort (a0 :: a1 :: a2 :: a3 :: more)) w
  = (Exit (ErrOpenOutput a2),
     World (fs w) (denied w) (trace w ++ [EvOpenRead a1; EvOpenWrite a2])).
Proof.
  intros Hin Hout. apply main_stops_with_startup.
  by apply main_startup_no_output.
Qed.

Lemma main_output_denied_witness :
  run (@main lineOracle decimal qsort_locs (command_line "100"))
    world_read_only
  = (Exit (ErrOpenOutput "out.p8b"),
     World (fs world_read_only) (denied world_read_only)
       (trace world_read_only
        ++ [EvOpenRead "in.p8b"; EvOpenWrite "out.p8b"])).
Proof.
  apply (@main_output_denied lineOracle decimal qsort_locs
           "nearNextP8bWindow" "in.p8b" "out.p8b" "100" [] world_read_only).
  - exists (zeros 8). reflexivity.
  - simpl. apply elem_of_singleton_2. reflexivity.
Defined.

(** X7.  When the input and the output are the same file, opening it for
    writing (line 84) empties it before it is sized: the record count is
    0 and the run ends in the undefined [x % 0] of line 101, leaving the
    file empty. *)
Theorem main_same_file_emptied {oracle : DistanceOracle}
    (atoi : string → Z) (qsort : list loc → list loc)
    (a0 a a3 : string) (more : list string) (w : world) :
  is_Some (fs w !! a) → a ∉ denied w → MIN_WIN ≤ atoi a3 ≤ MAX_WIN →
  ∃ w', run (main atoi qsort (a0 :: a :: a :: a3 :: more)) w
        = (Fault DivByZero, w')
        ∧ fs w' !! a = Some [].
Proof.
  intros Hin Hout Hw.
  destruct (main_same_path atoi qsort a0 a a3 more w) as (w' & Hrun & Hfs);
    [done..|].
  exists w'. split; [done|]. by rewrite Hfs, lookup_insert_eq.
Qed.

Lemma main_same_file_emptied_witness :
  ∃ w', run (@main lineOracle decimal qsort_locs
               ["nearNextP8bWindow"; "in.p8b"; "in.p8b"; "100"]%string)
          world_five
        = (Fault DivByZero, w')
        ∧ fs w' !! "in.p8b"%string = Some [].
Proof.
  apply (@main_same_file_emptied lineOracle decimal qsort_locs
           "nearNextP8bWindow" "in.p8b" "100" [] world_five).
  - exists five_records. reflexivity.
  - apply not_elem_of_empty.
  - unfold MIN_WIN, MAX_WIN. vm_compute. split; discriminate.
Defined.



(** X9.  On a freshly loaded array the loop of lines 119-132 leaves the
    number of locations, the half-window and every token as they were;
    [nInsideWin] ends as [lcnCnt - 1], one for each pass, and
    [nOutsideWin] between 0 and that. *)
Theorem itinerary_counters {oracle : DistanceOracle} (g : globals) :
  well_sized g → 1 ≤ lcnCnt g → window_fits g →
  Forall (λ x, iOrd x = -1) (locs g) →
  ∃ d, itinerary g = Ret d
    ∧ lcnCnt (dg d) = lcnCnt g ∧ iWin (dg d) = iWin g
    ∧ ptUs8 <$> locs (dg d) = ptUs8 <$> locs g
    ∧ nInsideWin (dg d) = lcnCnt g - 1
    ∧ 0 ≤ nOutsideWin (dg d) ≤ lcnCnt g - 1.
Proof.
  intros Hsz HN Hfit Hfresh.
  destruct (itinerary_log g) as (d & Hd & Hinv & Hk & Hlog & Htok); [done..|].
  destruct Hlog as (_ & _ & _ & Hin & Hout).
  exists d. split; [done|]. split; [apply Hinv|]. split; [apply Hinv|].
  split; [done|]. rewrite <- Hk. done.
Qed.

Lemma itinerary_counters_witness :
  ∃ d, @itinerary lineOracle five_loaded = Ret d
    ∧ lcnCnt (dg d) = lcnCnt five_loaded ∧ iWin (dg d) = iWin five_loaded
    ∧ ptUs8 <$> locs (dg d) = ptUs8 <$> locs five_loaded
    ∧ nInsideWin (dg d) = lcnCnt five_loaded - 1
    ∧ 0 ≤ nOutsideWin (dg d) ≤ lcnCnt five_loaded - 1.
Proof.
  apply (@itinerary_counters lineOracle five_loaded).
  - reflexivity.
  - simpl. lia.
  - int_bounds.
  - repeat constructor.
Defined.

(** X10.  On a freshly loaded array the loop gives out the orders
    [0, 1, .., lcnCnt-1] in this sequence, the first to location 0; the
    location that got order [j] still has it at the end, and the pivot at
    the end is the location that got the last order. *)
Theorem itinerary_visiting_order {oracle : DistanceOracle} (g : globals) :
  well_sized g → 1 ≤ lcnCnt g → window_fits g →
  Forall (λ x, iOrd x = -1) (locs g) →
  ∃ d, itinerary g = Ret d
    ∧ (stores d).*2 = seqZ 0 (lcnCnt g)
    ∧ head (stores d).*1.*1 = Some 0
    ∧ last (stores d).*1.*1 = Some (nPrev d)
    ∧ ∀ (j : nat) i, (stores d).*1.*1 !! j = Some i →
        ∃ x, rd (locs (dg d)) i = Some x ∧ iOrd x = Z.of_nat j.
Proof.
  intros Hsz HN Hfit Hfresh.
  destruct (itinerary_log g) as (d & Hd & Hinv & Hk & Hlog & Htok); [done..|].
  destruct Hlog as (Hval & Hhd & Hlast & _).
  exists d. split; [done|]. split; [by rewrite <- Hk|].
  split; [done|]. split; [done|].
  intros j i Hi. destruct (stores_entry d j i Hval Hi) as (o & Hs).
  apply list_elem_of_lookup_2 in Hs.
  destruct (inv_stores _ _ _ Hinv _ _ _ Hs) as (_ & _ & Hx). done.
Qed.

Lemma itinerary_visiting_order_witness :
  ∃ d, @itinerary lineOracle five_loaded = Ret d
    ∧ (stores d).*2 = seqZ 0 (lcnCnt five_loaded)
    ∧ head (stores d).*1.*1 = Some 0
    ∧ last (stores d).*1.*1 = Some (nPrev d)
    ∧ ∀ (j : nat) i, (stores d).*1.*1 !! j = Some i →
        ∃ x, rd (locs (dg d)) i = Some x ∧ iOrd x = Z.of_nat j.
Proof.
  apply (@itinerary_visiting_order lineOracle five_loaded).
  - reflexivity.
  - simpl. lia.
  - int_bounds.
  - repeat constructor.
Defined.

(** X11.  After the loop, whatever [qsort] with [compIntsIx0] leaves shows
    at position [j] the token of the location that was visited as the
    [j]-th: the tokens of the array as loaded, taken in visiting order. *)
Theorem qsort_gives_visiting_order {oracle : DistanceOracle}
    (g : globals) (d : driver) (out : list loc) :
  well_sized g → 1 ≤ lcnCnt g → window_fits g →
  Forall (λ x, iOrd x = -1) (locs g) →
  itinerary g = Ret d →
  qsort_result compIntsIx0 (locs (dg d)) out →
  ptUs8 <$> out = token (locs g) <$> (stores d).*1.*1.
Proof.
  intros Hsz HN Hfit Hfresh Hd Hq.
  destruct (itinerary_log g) as (d' & Hd' & Hinv & Hk & Hlog & Htok);
    [done..|].
  rewrite Hd in Hd'. injection Hd' as <-.
  rewrite (sorted_follows_stores (lcnCnt g) (iWin g) d out);
    [|destruct Hfit; lia | done..].
  apply list_fmap_ext. intros _ i _. by apply token_ext.
Qed.

Lemma qsort_gives_visiting_order_witness :
  ptUs8 <$> qsort_locs
              [Loc 0 0 10; Loc 4 0 1; Loc 3 0 2; Loc 1 0 9; Loc 2 0 8]
  = token (locs five_loaded) <$> [0; 3; 4; 2; 1].
Proof.
  apply (@qsort_gives_visiting_order lineOracle five_loaded
           (Driver
              (Globals 5
                 [Loc 0 0 10; Loc 4 0 1; Loc 3 0 2; Loc 1 0 9; Loc 2 0 8]
                 8 4 0)
              1 5 [(0, -1, 0); (3, -1, 1); (4, -1, 2); (2, -1, 3); (1, -1, 4)])
           (qsort_locs
              [Loc 0 0 10; Loc 4 0 1; Loc 3 0 2; Loc 1 0 9; Loc 2 0 8])).
  - reflexivity.
  - simpl. lia.
  - int_bounds.
  - repeat constructor.
  - reflexivity.
  - apply qsort_locs_result.
Defined.

(** X12.  For a pivot inside the array and a half-window that fits: when
    the window holds an unvisited location, [next_location] is the result
    of [closeInWin] -- an unvisited location of the window -- and only
    [nInsideWin] is counted, [closeOutWin] is not called; when the window
    holds none, [next_location] is [closeOutWin] run after [nInsideWin]
    was counted. *)
Theorem outward_search_only_when_window_empty {oracle : DistanceOracle}
    (g : globals) (p : Z) :
  well_sized g → window_fits g → 0 ≤ p < lcnCnt g →
  ((∃ j, win_start g p ≤ j < win_end g p ∧ unvisited (locs g) j) →
   ∃ r, next_location g p = Ret (r, inside_counted g)
        ∧ win_start g p ≤ r < win_end g p ∧ unvisited (locs g) r)
  ∧ ((∀ j, win_start g p ≤ j < win_end g p → ¬ unvisited (locs g) j) →
     next_location g p = closeOutWin (inside_counted g) p).
Proof.
  intros Hsz [Hh Hfit] Hp.
  assert (Hhi : in_int (p + iWin g)) by int_bounds.
  destruct (window_ints g p) as [Hlo _]; [lia | done | done |].
  unfold next_location.
  destruct (closeInWin_characterised g p) as (r & -> & Hnone & Hsome);
    [done..|]. simpl.
  split.
  - intros (j & Hj & Hu). destruct (Z.eqb_spec r (-1)) as [->|Hr].
    + destruct (proj1 Hnone eq_refl j Hj Hu).
    + exists r. split; [done|]. destruct (Hsome Hr) as (? & ? & _). done.
  - intros Hall. apply Hnone in Hall as ->. done.
Qed.

(** Pivot 3 of [window_exhausted]. *)
Lemma outward_search_only_when_window_empty_witness :
  ((∃ j, win_start window_exhausted 3 ≤ j < win_end window_exhausted 3
         ∧ unvisited (locs window_exhausted) j) →
   ∃ r, @next_location lineOracle window_exhausted 3
        = Ret (r, inside_counted window_exhausted)
        ∧ win_start window_exhausted 3 ≤ r < win_end window_exhausted 3
        ∧ unvisited (locs window_exhausted) r)
  ∧ ((∀ j, win_start window_exhausted 3 ≤ j < win_end window_exhausted 3
           → ¬ unvisited (locs window_exhausted) j) →
     @next_location lineOracle window_exhausted 3
     = closeOutWin (inside_counted window_exhausted) 3).
Proof.
  apply (@outward_search_only_when_window_empty lineOracle
           window_exhausted 3).
  - reflexivity.
  - int_bounds.
  - simpl. lia.
Defined.

(** X13.  On the values an [iOrd] field takes in the program -- [-1] and
    orders, which are below [lcnCnt] -- the subtraction of [compIntsIx0]
    does not overflow: the result is the difference, exchanging the
    arguments negates it, and a location may stand before another exactly
    when its [iOrd] is not the greater. *)
Theorem compIntsIx0_exact_on_orders (a b : loc) :
  -1 ≤ iOrd a < INT_MAX → -1 ≤ iOrd b < INT_MAX →
  compIntsIx0 a b = iOrd a - iOrd b
  ∧ compIntsIx0 b a = - compIntsIx0 a b
  ∧ (not_after compIntsIx0 a b ↔ iOrd a ≤ iOrd b).
Proof.
  intros Ha Hb. unfold not_after.
  rewrite (compIntsIx0_orders a b), (compIntsIx0_orders b a) by done. lia.
Qed.

Lemma compIntsIx0_exact_on_orders_witness :
  compIntsIx0 (Loc (-1) 0 5) (Loc 3 0 6) = -1 - 3
  ∧ compIntsIx0 (Loc 3 0 6) (Loc (-1) 0 5)
    = - compIntsIx0 (Loc (-1) 0 5) (Loc 3 0 6)
  ∧ (not_after compIntsIx0 (Loc (-1) 0 5) (Loc 3 0 6) ↔ -1 ≤ 3).
Proof.
  apply (compIntsIx0_exact_on_orders (Loc (-1) 0 5) (Loc 3 0 6)).
  - int_bounds.
  - int_bounds.
Defined.

(** X14.  The loop of the brute-force program (lines 77-97) on an array
    of any length runs to its end without leaving the array and without
    reaching the [errorExit] of line 90; the array it leaves holds the
    locations it was given, and the first of them is still the first. *)
Theorem bf_itinerary_permutes {oracle : DistanceOracle} (l : list Z) :
  ∃ l', bf_itinerary l (Z.of_nat (length l)) = Ret (BfDone l')
    ∧ l' ≡ₚ l ∧ head l' = head l.
Proof.
  destruct (bf_itinerary_result l) as (l' & Hrun & Hperm & Hhd & _).
  by exists l'.
Qed.

(** X15.  In the array the brute-force loop leaves, every location at an
    even position [2 i] with [2 i + 2 < lcnCnt] is followed by a location
    that no later location is nearer to it than.  (The body of the loop
    ends in an [n++] of its own, so the locations at odd positions are
    never the start of a search.) *)
Theorem bf_itinerary_greedy_every_second {oracle : DistanceOracle}
    (l l' : list Z) (i : nat) :
  bf_itinerary l (Z.of_nat (length l)) = Ret (BfDone l') →
  (2 * i + 2 < length l)%nat →
  bf_greedy_at l' (2 * i).
Proof.
  intros Hrun Hi.
  destruct (bf_itinerary_result l) as (l'' & Hrun' & _ & _ & Hgreedy).
  rewrite Hrun in Hrun'. injection Hrun' as <-. by apply Hgreedy.
Qed.

(** The five tokens of the scenario, position 2. *)
Lemma bf_itinerary_greedy_every_second_witness :
  @bf_greedy_at lineOracle [10; 9; 2; 1; 8] (2 * 1).
Proof.
  apply (@bf_itinerary_greedy_every_second lineOracle
           [10; 1; 2; 9; 8] [10; 9; 2; 1; 8] 1).
  - reflexivity.
  - simpl. lia.
Defined.

(** X16.  With four locations the brute-force loop makes one search and
    one exchange: the second place goes to the location nearest to the
    first, and the other two stay where the exchange leaves them,
    whatever their distances from the second. *)
Theorem bf_four_locations {oracle : DistanceOracle} (a b c d : Z) :
  ∃ l', bf_itinerary [a; b; c; d] 4 = Ret (BfDone l')
    ∧ (l' = [a; b; c; d] ∨ l' = [a; c; b; d] ∨ l' = [a; d; c; b]).
Proof.
  unfold bf_itinerary. simpl. rewrite chord_lt_huge.
  destruct (dlt _ _); destruct (dlt _ _); simpl; eauto.
Qed.
